(** * ServiceBackUp: a shallow embedding of [backup_script.py]

    The development follows the classes of the script:
    [IncrementalBackup] (the per-server hash index), [ProgressBar],
    [SSHBackup] (one directory operation, full or incremental) and
    [BackupManager] (one campaign per server, version snapshot, retention).

    Conventions of the embedding.
    - A Python [dict] from remote path to digest is a [gmap string string].
    - Python integers are [Z]; readings of [time.time()] are rationals.
    - Everything the script cannot decide by itself (what the remote host
      answers, whether a transfer or a file-system call raises, what the
      clock reads) is a field of the record [env].
    - Disk and network actions are logged, in order, in the [trace] of the
      world, so that "the index is written" or "the tree is fetched in one
      bulk copy" are statements about that log.
    - The progress monitor thread of the full backup only feeds the
      progress bar and is left out; console output is left out as well. *)

From Stdlib Require Import ZArith QArith String Ascii List Lia Permutation.
From Stdlib Require Import OrderedTypeEx Lqa.
From stdpp Require Import gmap strings list sorting.
Close Scope Q_scope.
Local Open Scope string_scope.
Local Open Scope Z_scope.

(** ** The environment of a run *)

(** What [open(..., 'w')] followed by [json.dump] can do to the index file. *)
Inductive write_outcome :=
  | WriteOk          (* the file now holds the dumped index *)
  | WriteOpenFails   (* [open] raised: the file is as it was *)
  | WriteDumpFails.  (* [json.dump] raised after the file was truncated *)

(** What [shutil.copytree] can do. *)
Inductive copytree_outcome :=
  | CopyDone
  | CopyRaisedPartial   (* raised after the target directory was created *)
  | CopyRaisedNothing.  (* raised before anything was created *)

Record env := {
  (* the remote host, through the SSH session *)
  connect_ok     : bool;                   (* [SSHBackup.connect] *)
  find_files     : string -> list string;  (* [find "<path>" -type f], blank lines dropped *)
  md5sum         : string -> string;       (* first word of [md5sum], "" when it fails *)
  stat_size      : string -> Z;            (* [stat -c%s], 0 when it fails *)
  count_files    : string -> Z;            (* [find <path> -type f | wc -l], 0 when it fails *)
  scp_get_tree   : string -> bool;         (* does [scp.get(path, recursive=True)] return? *)
  scp_get_file   : string -> bool;         (* does [scp.get] of that one file return? *)
  (* the local machine *)
  makedirs_ok    : string -> bool;         (* [os.makedirs(local_path, exist_ok=True)] *)
  relpath        : string -> string -> string;   (* [os.path.relpath] *)
  join           : string -> string -> string;   (* [os.path.join] *)
  dirname        : string -> string;             (* [os.path.dirname] *)
  local_path_of  : string -> string;       (* [str(current / remote_path.lstrip('/'))] *)
  write_index    : gmap string string -> write_outcome;
  rmtree_ok      : string -> bool;         (* does [shutil.rmtree] of that child succeed? *)
  copytree       : copytree_outcome;
  time_at        : nat -> Q;               (* the n-th reading of [time.time()] *)
  strftime_now   : string;                 (* [datetime.now().strftime('%Y%m%d_%H%M%S')] *)
  (* the configuration *)
  show_current_file   : bool;              (* backup_settings.get('show_current_file', True) *)
  max_backup_versions : Z                  (* backup_settings['max_backup_versions'] *)
}.

(** ** The world: disk, clock and the log of actions *)

(** The hash index file [<server>_hash.json] as [load_hash_index] sees it:
    not there, there but rejected by [json.load], or holding a JSON object
    from paths to digests. *)
Inductive index_file :=
  | FileAbsent
  | FileUnparsable
  | FileJson (m : gmap string string).

(** A child of the server directory [backup_dir/<server>]. *)
Record dirent := { name : string; is_dir : bool }.

Inductive event :=
  | EScpGetTree (remote_path local_path : string)  (* recursive bulk copy *)
  | EScpGetFile (remote_path local_path : string)  (* copy of one file *)
  | EWriteIndex (m : gmap string string)           (* [save_hash_index] runs *)
  | ERmtree (child : string)                       (* [shutil.rmtree] of a child *)
  | ECopytree (target : string).                   (* [shutil.copytree(current, target)] *)

Record world := {
  server_dir : list dirent;
  hash_index_file  : index_file;
  ticks      : nat;
  trace      : list event
}.

Definition emit (ev : event) (w : world) : world :=
  {| server_dir := server_dir w; hash_index_file := hash_index_file w;
     ticks := ticks w; trace := trace w ++ [ev] |}.

Definition set_hash_index_file (f : index_file) (w : world) : world :=
  {| server_dir := server_dir w; hash_index_file := f;
     ticks := ticks w; trace := trace w |}.

Definition set_server_dir (d : list dirent) (w : world) : world :=
  {| server_dir := d; hash_index_file := hash_index_file w;
     ticks := ticks w; trace := trace w |}.

(** [time.time()]: the next reading of the clock. *)
Definition time_time (e : env) (w : world) : Q * world :=
  (time_at e (ticks w),
   {| server_dir := server_dir w; hash_index_file := hash_index_file w;
      ticks := S (ticks w); trace := trace w |}).

(** ** class IncrementalBackup *)

Module IncrementalBackup.

(** [load_hash_index]: [{}] when the file is absent or [json.load] raises. *)
Definition load_hash_index (f : index_file) : gmap string string :=
  match f with
  | FileAbsent => ∅
  | FileUnparsable => ∅
  | FileJson m => m
  end.

(** [save_hash_index]: the exception of a failed write is swallowed. *)
Definition save_hash_index (e : env) (hash_index : gmap string string)
    (w : world) : world :=
  let w := emit (EWriteIndex hash_index) w in
  match write_index e hash_index with
  | WriteOk => set_hash_index_file (FileJson hash_index) w
  | WriteOpenFails => w
  | WriteDumpFails => set_hash_index_file FileUnparsable w
  end.

Definition get_remote_file_hash (e : env) (remote_path : string) : string :=
  md5sum e remote_path.

Definition get_remote_file_list (e : env) (remote_path : string) : list string :=
  find_files e remote_path.

(** [should_backup_file]: the decision and the index after it. *)
Definition should_backup_file (e : env) (remote_path : string)
    (hash_index : gmap string string) : bool * gmap string string :=
  let remote_hash := get_remote_file_hash e remote_path in
  if String.eqb remote_hash "" then (true, hash_index)
  else
    let previous_hash := default "" (hash_index !! remote_path) in
    if negb (String.eqb remote_hash previous_hash)
    then (true, <[remote_path := remote_hash]> hash_index)
    else (false, hash_index).

(** [is_first_backup]: [len(self.hash_index) == 0]. *)
Definition is_first_backup (hash_index : gmap string string) : bool :=
  bool_decide (size hash_index = 0%nat).

End IncrementalBackup.

(** ** class ProgressBar *)

Module ProgressBar.

Record t := {
  total            : Z;
  current          : Z;
  description      : string;
  start_time       : Q;
  last_update      : Q;
  show_file_info   : bool;
  current_file     : string;
  total_size       : Z;
  transferred_size : Z;
  last_size_update : Z
}.

(** [__init__]; [now] is the reading of [time.time()]. *)
Definition init (total : Z) (description : string) (show_file_info : bool)
    (now : Q) : t :=
  {| total := total; current := 0; description := description;
     start_time := now; last_update := 0%Q; show_file_info := show_file_info;
     current_file := ""; total_size := 0; transferred_size := 0;
     last_size_update := 0 |}.

(** What one rendering of the bar shows (the float figures, percentage,
    speeds and remaining time, are not part of the model). *)
Record rendering := {
  r_filled      : Z;               (* filled cells of the 30-cell bar *)
  r_current     : Z;
  r_total       : Z;
  r_transferred : option Z;        (* shown when [transferred_size > 0] *)
  r_file        : option string    (* shown when enabled and set *)
}.

Definition Qltb (x y : Q) : bool := negb (Qle_bool y x).

(** A Python [str] is held as the bytes of its UTF-8 encoding.  A byte
    [10xxxxxx] continues the code point begun before it. *)
Definition continuation (c : ascii) : bool :=
  match c with
  | Ascii _ _ _ _ _ _ b6 b7 => b7 && negb b6
  end.

(** [len(s)]: the number of code points, one per byte that does not
    continue another. *)
Fixpoint len (s : string) : nat :=
  match s with
  | EmptyString => 0%nat
  | String c s' => ((if continuation c then 0 else 1) + len s')%nat
  end.

Fixpoint skip_continuation (s : string) : string :=
  match s with
  | EmptyString => EmptyString
  | String c s' => if continuation c then skip_continuation s' else s
  end.

(** [s[n:]] for [n >= 0]: the string without its first [n] code points. *)
Fixpoint drop_chars (n : nat) (s : string) : string :=
  match n with
  | O => s
  | S n' =>
      match skip_continuation s with
      | EmptyString => EmptyString
      | String _ s' => drop_chars n' (skip_continuation s')
      end
  end.

(** The name shown: at most 50 characters, the last 47 after "...";
    [display_file[-47:]] of a name of more than 50 characters is the name
    without its first [len - 47] characters. *)
Definition display_file (f : string) : string :=
  if (50 <? len f)%nat
  then String.append "..." (drop_chars (len f - 47) f)
  else f.

Definition render (pb : t) (current : Z) : rendering :=
  {| r_filled := if 0 <? total pb then (30 * current) / total pb else 0;
     r_current := current;
     r_total := total pb;
     r_transferred :=
       if 0 <? transferred_size pb then Some (transferred_size pb) else None;
     r_file :=
       if show_file_info pb && negb (String.eqb (current_file pb) "")
       then Some (display_file (current_file pb)) else None |}.

(** [update(current, current_file="", file_size=0)], with the clock
    reading [now]: the object after the call and what was drawn, if
    anything. *)
Definition update (pb : t) (current : Z) (current_file : string)
    (file_size : Z) (now : Q) : t * option rendering :=
  let pb1 :=
    {| total := total pb; current := current; description := description pb;
       start_time := start_time pb; last_update := last_update pb;
       show_file_info := show_file_info pb;
       current_file :=
         if String.eqb current_file "" then ProgressBar.current_file pb
         else current_file;
       total_size := total_size pb;
       transferred_size :=
         if 0 <? file_size then transferred_size pb + file_size
         else transferred_size pb;
       last_size_update := last_size_update pb |} in
  if Qltb (now - last_update pb1)%Q (1 # 10)%Q then (pb1, None)
  else
    let pb2 :=
      {| total := total pb1; current := ProgressBar.current pb1;
         description := description pb1; start_time := start_time pb1;
         last_update := now; show_file_info := show_file_info pb1;
         current_file := ProgressBar.current_file pb1;
         total_size := total_size pb1;
         transferred_size := transferred_size pb1;
         last_size_update := last_size_update pb1 |} in
    (pb2, Some (render pb2 current)).

(** What [finish] prints. *)
Record summary := {
  f_elapsed     : Q;
  f_speed       : Q;
  f_total_bytes : option Z;     (* printed when [transferred_size > 0] *)
  f_data_speed  : Q
}.

Definition finish (pb : t) (now : Q) : summary :=
  let elapsed := (now - start_time pb)%Q in
  let positive := Qltb 0%Q elapsed in
  {| f_elapsed := elapsed;
     f_speed := if positive then (inject_Z (total pb) / elapsed)%Q else 0%Q;
     f_total_bytes :=
       if 0 <? transferred_size pb then Some (transferred_size pb) else None;
     f_data_speed :=
       if positive then (inject_Z (transferred_size pb) / elapsed)%Q else 0%Q |}.

(** A sequence of [update] calls, each with its own clock reading. *)
Record call := {
  c_current : Z; c_file : string; c_bytes : Z; c_now : Q
}.

Definition run (pb : t) (calls : list call) : t :=
  fold_left
    (fun pb c => fst (update pb (c_current c) (c_file c) (c_bytes c) (c_now c)))
    calls pb.

(** The renderings a sequence of calls produces, in order. *)
Fixpoint renderings (pb : t) (calls : list call) : list rendering :=
  match calls with
  | [] => []
  | c :: calls =>
      let r := update pb (c_current c) (c_file c) (c_bytes c) (c_now c) in
      match snd r with
      | Some x => x :: renderings (fst r) calls
      | None => renderings (fst r) calls
      end
  end.

End ProgressBar.

(** ** class SSHBackup *)

Module SSHBackup.

Record t := {
  hash_index     : gmap string string;   (* [self.incremental_backup.hash_index] *)
  total_files    : Z;
  copied_files   : Z;
  progress_bar   : option ProgressBar.t;
  is_downloading : bool
}.

(** [__init__], around an [IncrementalBackup] whose index is [hash_index]. *)
Definition init (hash_index : gmap string string) : t :=
  {| hash_index := hash_index; total_files := 0; copied_files := 0;
     progress_bar := None; is_downloading := false |}.

(** [build_hash_index_after_full_backup]: the loop over the remote files. *)
Definition build_hash_index_after_full_backup (e : env) (remote_path : string)
    (hash_index : gmap string string) : gmap string string :=
  fold_left
    (fun idx file_path =>
       let remote_hash := IncrementalBackup.get_remote_file_hash e file_path in
       if String.eqb remote_hash "" then idx
       else <[file_path := remote_hash]> idx)
    (IncrementalBackup.get_remote_file_list e remote_path) hash_index.

(** The selection loop of the incremental branch: [files_to_backup] and
    the index as [should_backup_file] leaves it. *)
Fixpoint select_files (e : env) (remote_files : list string)
    (hash_index : gmap string string) : list string * gmap string string :=
  match remote_files with
  | [] => ([], hash_index)
  | file_path :: rest =>
      let r := IncrementalBackup.should_backup_file e file_path hash_index in
      let s := select_files e rest (snd r) in
      (if fst r then file_path :: fst s else fst s, snd s)
  end.

(** The copy loop of the incremental branch.  The body of the [try] can
    raise when the parent directory cannot be made or when the transfer
    fails; the handler counts the file all the same and goes on. *)
Fixpoint copy_files (e : env) (remote_path local_path : string)
    (files_to_backup : list string)
    (copied_files : Z) (pb : ProgressBar.t) (w : world)
    : Z * ProgressBar.t * world :=
  match files_to_backup with
  | [] => (copied_files, pb, w)
  | file_path :: rest =>
      let local_file_path := join e local_path (relpath e file_path remote_path) in
      let body :=
        if makedirs_ok e (dirname e local_file_path) then
          let file_size := stat_size e file_path in
          let w1 := emit (EScpGetFile file_path local_file_path) w in
          if scp_get_file e file_path then (Some file_size, w1) else (None, w1)
        else (None, w) in
      let copied_files := copied_files + 1 in
      let clock := time_time e (snd body) in
      let pb1 :=
        match fst body with
        | Some file_size =>
            fst (ProgressBar.update pb copied_files file_path file_size (fst clock))
        | None =>
            fst (ProgressBar.update pb copied_files file_path 0 (fst clock))
        end in
      copy_files e remote_path local_path rest copied_files pb1 (snd clock)
  end.

(** [download_directory]. *)
Definition download_directory (e : env) (remote_path local_path : string)
    (self : t) (w : world) : bool * t * world :=
  if negb (makedirs_ok e local_path) then
    (false,
     {| hash_index := hash_index self; total_files := total_files self;
        copied_files := copied_files self; progress_bar := progress_bar self;
        is_downloading := false |}, w)
  else if IncrementalBackup.is_first_backup (hash_index self) then
    (* full backup *)
    let total := count_files e remote_path in
    let started :=
      if 0 <? total then
        let clock := time_time e w in
        (Some (ProgressBar.init total "全量备份" false (fst clock)), snd clock)
      else (progress_bar self, w) in
    let w1 := emit (EScpGetTree remote_path local_path) (snd started) in
    if scp_get_tree e remote_path then
      let w2 :=
        match fst started with
        | Some pb => snd (time_time e w1)       (* [progress_bar.finish()] *)
        | None => w1
        end in
      let idx := build_hash_index_after_full_backup e remote_path (hash_index self) in
      (true,
       {| hash_index := idx; total_files := total;
          copied_files := copied_files self; progress_bar := fst started;
          is_downloading := false |},
       IncrementalBackup.save_hash_index e idx w2)
    else
      (false,
       {| hash_index := hash_index self; total_files := total;
          copied_files := copied_files self; progress_bar := fst started;
          is_downloading := false |}, w1)
  else
    (* incremental backup *)
    let remote_files := IncrementalBackup.get_remote_file_list e remote_path in
    let selected := select_files e remote_files (hash_index self) in
    let files_to_backup := fst selected in
    let backup_files := Z.of_nat (length files_to_backup) in
    if backup_files =? 0 then
      (true,
       {| hash_index := snd selected; total_files := total_files self;
          copied_files := copied_files self; progress_bar := progress_bar self;
          is_downloading := is_downloading self |}, w)
    else
      let clock := time_time e w in
      let pb := ProgressBar.init backup_files "增量备份" (show_current_file e)
                  (fst clock) in
      let copied := copy_files e remote_path local_path files_to_backup 0 pb
                      (snd clock) in
      let w1 := snd (time_time e (snd copied)) in   (* [progress_bar.finish()] *)
      (true,
       {| hash_index := snd selected; total_files := total_files self;
          copied_files := fst (fst copied);
          progress_bar := Some (snd (fst copied));
          is_downloading := is_downloading self |},
       IncrementalBackup.save_hash_index e (snd selected) w1).

End SSHBackup.

(** ** class BackupManager *)

Module BackupManager.

Definition has_child (child : string) (d : list dirent) : bool :=
  existsb (fun x => String.eqb (name x) child) d.

(** [Path.mkdir(exist_ok=True)] of a child of the server directory:
    [None] stands for [FileExistsError] (a file of that name is there). *)
Definition mkdir_exist_ok (child : string) (d : list dirent)
    : option (list dirent) :=
  match List.find (fun x => String.eqb (name x) child) d with
  | Some x => if is_dir x then Some d else None
  | None => Some (d ++ [{| name := child; is_dir := true |}])%list
  end.

(** [shutil.rmtree] of a child of the server directory; [false] when it
    raises.  The index file lives in the child [hash_index]. *)
Definition rmtree (e : env) (child : string) (w : world) : bool * world :=
  let w := emit (ERmtree child) w in
  if rmtree_ok e child then
    (true,
     {| server_dir :=
          List.filter (fun x => negb (String.eqb (name x) child)) (server_dir w);
        hash_index_file :=
          if String.eqb child "hash_index" then FileAbsent else hash_index_file w;
        ticks := ticks w; trace := trace w |})
  else (false, w).

(** [copy_backup_to_version(current, target)]; [false] when it re-raises. *)
Definition copy_backup_to_version (e : env) (target : string) (w : world)
    : bool * world :=
  let removed :=
    if has_child target (server_dir w) then rmtree e target w else (true, w) in
  if fst removed then
    let w1 := emit (ECopytree target) (snd removed) in
    let made :=
      set_server_dir
        (server_dir w1 ++ [{| name := target; is_dir := true |}])%list w1 in
    match copytree e with
    | CopyDone => (true, made)
    | CopyRaisedPartial => (false, made)
    | CopyRaisedNothing => (false, w1)
    end
  else (false, snd removed).

(** [backup_dirs.sort(key=lambda x: x.name, reverse=True)]: the stable
    sort on names, greatest first.  Names are compared as byte strings,
    which orders UTF-8 text by code point as Python does. *)
Fixpoint insert_desc (x : dirent) (l : list dirent) : list dirent :=
  match l with
  | [] => [x]
  | y :: l' =>
      if String.leb (name y) (name x) then x :: y :: l'
      else y :: insert_desc x l'
  end.

Definition sort_desc (l : list dirent) : list dirent :=
  fold_right insert_desc [] l.

(** The Python slice [l[k:]] for an integer [k] of either sign. *)
Definition slice_from {A} (l : list A) (k : Z) : list A :=
  if 0 <=? k then skipn (Z.to_nat k) l
  else skipn (Z.to_nat (Z.of_nat (length l) + k)) l.

(** The directories [cleanup_old_backups] takes for versions. *)
Definition backup_dirs (d : list dirent) : list dirent :=
  List.filter (fun x => is_dir x && negb (String.eqb (name x) "current")) d.

(** The deletion loop: a failed [rmtree] is logged and the loop goes on. *)
Definition remove_all (e : env) (old : list dirent) (w : world) : world :=
  fold_left (fun w old_backup => snd (rmtree e (name old_backup) w)) old w.

(** [cleanup_old_backups]. *)
Definition cleanup_old_backups (e : env) (w : world) : world :=
  let sorted := sort_desc (backup_dirs (server_dir w)) in
  remove_all e (slice_from sorted (max_backup_versions e)) w.

(** The loop of [backup_server] over [server_config['remote_paths']]. *)
Fixpoint backup_paths (e : env) (remote_paths : list string) (success : bool)
    (client : SSHBackup.t) (w : world) : bool * SSHBackup.t * world :=
  match remote_paths with
  | [] => (success, client, w)
  | remote_path :: rest =>
      let r := SSHBackup.download_directory e remote_path
                 (local_path_of e remote_path) client w in
      backup_paths e rest (if fst (fst r) then success else false)
        (snd (fst r)) (snd r)
  end.

(** The [else] branch after the [try]: the reserved version directory is
    removed, and a failure to remove it is ignored. *)
Definition rollback (e : env) (w : world) : world :=
  if has_child (strftime_now e) (server_dir w)
  then snd (rmtree e (strftime_now e) w)
  else w.

(** The [if success] branch after the [try]. *)
Definition publish (e : env) (w : world) : world :=
  cleanup_old_backups e (snd (copy_backup_to_version e (strftime_now e) w)).

(** [backup_server]; [None] when an exception leaves the function
    (a [mkdir] before the [try] raised).  [backup_client.disconnect()],
    the last statement of the [try], is taken to return. *)
Definition backup_server (e : env) (remote_paths : list string) (w : world)
    : option (bool * world) :=
  match mkdir_exist_ok "current" (server_dir w) with
  | None => None
  | Some d1 =>
      match mkdir_exist_ok (strftime_now e) d1 with
      | None => None
      | Some d2 =>
          (* try: *)
          match mkdir_exist_ok "hash_index" d2 with
          | None =>
              (* [IncrementalBackup.__init__] raised: success = False *)
              Some (false, rollback e (set_server_dir d2 w))
          | Some d3 =>
              let w1 := set_server_dir d3 w in
              let client :=
                SSHBackup.init (IncrementalBackup.load_hash_index (hash_index_file w1)) in
              if negb (connect_ok e) then Some (false, w1)   (* return False *)
              else
                let r := backup_paths e remote_paths true client w1 in
                if fst (fst r) then Some (true, publish e (snd r))
                else Some (false, rollback e (snd r))
          end
      end
  end.

End BackupManager.

(** * Specification vocabulary *)

(** The inclusion decision as the specification words it: an empty live
    digest includes the file and leaves the index alone; otherwise an
    absent or different stored digest records the live one and includes
    the file; an equal stored digest excludes it. *)
Definition shouldInclude (index : gmap string string) (path liveDigest : string)
    : bool * gmap string string :=
  if decide (liveDigest = "") then (true, index)
  else
    match index !! path with
    | None => (true, <[path := liveDigest]> index)
    | Some stored =>
        if decide (stored = liveDigest) then (false, index)
        else (true, <[path := liveDigest]> index)
    end.


Definition sum_positive_bytes (calls : list ProgressBar.call) : Z :=
  fold_right Z.add 0 (map (fun c => Z.max 0 (ProgressBar.c_bytes c)) calls).

(** The count passed by the last call, [c0] when there is none. *)
Definition last_current (c0 : Z) (calls : list ProgressBar.call) : Z :=
  List.last (map ProgressBar.c_current calls) c0.

(** Where the copy loop puts a remote file. *)
Definition local_file_path (e : env) (remote_path local_path file_path : string)
    : string :=
  join e local_path (relpath e file_path remote_path).

(** The transfers the copy loop starts for a work list, in order: one per
    file whose parent directory could be made. *)
Definition file_events (e : env) (remote_path local_path : string)
    (files : list string) : list event :=
  flat_map
    (fun f =>
       let target := local_file_path e remote_path local_path f in
       if makedirs_ok e (dirname e target) then [EScpGetFile f target] else [])
    files.

(** The work list the incremental scan of [remote_path] builds. *)
Definition work_list (e : env) (remote_path : string)
    (index : gmap string string) : list string :=
  fst (SSHBackup.select_files e (find_files e remote_path) index).

(** The actions logged between two worlds. *)
Definition new_events (w w' : world) : list event :=
  skipn (length (trace w)) (trace w').


Definition is_index_write (ev : event) : bool :=
  match ev with EWriteIndex _ => true | _ => false end.

(** The file after [save_hash_index] ran on [index] over the file [f]. *)
Definition written (e : env) (index : gmap string string) (f : index_file)
    : index_file :=
  match write_index e index with
  | WriteOk => FileJson index
  | WriteOpenFails => f
  | WriteDumpFails => FileUnparsable
  end.

(** A directory operation runs its branch to the end: the local directory
    can be made and, in full mode, the bulk copy returns. *)
Definition completes (e : env) (remote_path local_path : string)
    (index : gmap string string) : bool :=
  makedirs_ok e local_path
  && (if IncrementalBackup.is_first_backup index
      then scp_get_tree e remote_path else true).

(** The operation is incremental and its scan selects nothing. *)
Definition empty_scan (e : env) (remote_path : string)
    (index : gmap string string) : bool :=
  negb (IncrementalBackup.is_first_backup index)
  && (length (work_list e remote_path index) =? 0)%nat.

(** ** A concrete host, used to run the model

    Two remote trees, [/srv/www] with the files [a] and [b] and [/srv/db]
    with the file [dump]; every digest can be read.  The parameters say
    whether the connection succeeds, which bulk copies and which
    single-file transfers succeed, how the snapshot copy ends and how many
    versions are kept. *)
Definition demo_env (connect : bool) (tree_ok file_ok : string -> bool)
    (copy : copytree_outcome) (keep : Z) : env :=
  {| connect_ok := connect;
     find_files := fun p =>
       if String.eqb p "/srv/www" then ["/srv/www/a"; "/srv/www/b"]
       else if String.eqb p "/srv/db" then ["/srv/db/dump"]
       else [];
     md5sum := fun f =>
       if String.eqb f "/srv/www/a" then "0cc175b9c0f1b6a831c399e269772661"
       else if String.eqb f "/srv/www/b" then "92eb5ffee6ae2fec3ad71c777531578f"
       else if String.eqb f "/srv/db/dump" then "4a8a08f09d37b73795649038408b5f33"
       else "";
     stat_size := fun _ => 1024;
     count_files := fun p =>
       if String.eqb p "/srv/www" then 2
       else if String.eqb p "/srv/db" then 1 else 0;
     scp_get_tree := tree_ok;
     scp_get_file := file_ok;
     makedirs_ok := fun _ => true;
     relpath := fun f _ => f;
     join := fun a b => String.append a b;
     dirname := fun f => f;
     local_path_of := fun p => String.append "current" p;
     write_index := fun _ => WriteOk;
     rmtree_ok := fun _ => true;
     copytree := copy;
     time_at := fun n => inject_Z (Z.of_nat n);
     strftime_now := "20240105_020000";
     show_current_file := true;
     max_backup_versions := keep |}.

(** An index that knows the two files of [/srv/www]. *)
Definition demo_index : gmap string string :=
  <["/srv/www/a" := "0cc175b9c0f1b6a831c399e269772661"]>
    (<["/srv/www/b" := "92eb5ffee6ae2fec3ad71c777531578f"]> ∅).

(** An index that knows an older content of [/srv/www/a] only. *)
Definition stale_index : gmap string string :=
  <["/srv/www/a" := "d41d8cd98f00b204e9800998ecf8427e"]> ∅.

Definition empty_world : world :=
  {| server_dir := []; hash_index_file := FileAbsent; ticks := 0; trace := [] |}.

(** An index that knows every file of the two trees. *)
Definition full_index : gmap string string :=
  <["/srv/db/dump" := "4a8a08f09d37b73795649038408b5f33"]> demo_index.

Definition dir (n : string) : dirent := {| name := n; is_dir := true |}.

(** A server directory after earlier campaigns: the mirror, the index
    directory and three versions. *)
Definition used_world : world :=
  {| server_dir := [dir "current"; dir "hash_index"; dir "20240102_020000";
                    dir "20240103_020000"; dir "20240104_020000"];
     hash_index_file := FileJson full_index; ticks := 0; trace := [] |}.

(** ** Campaigns *)

(** The result of each directory operation of the loop of [backup_server],
    in the order of the configured paths. *)
Fixpoint path_results (e : env) (remote_paths : list string)
    (client : SSHBackup.t) (w : world) : list bool :=
  match remote_paths with
  | [] => []
  | remote_path :: rest =>
      let r := SSHBackup.download_directory e remote_path
                 (local_path_of e remote_path) client w in
      fst (fst r) :: path_results e rest (snd (fst r)) (snd r)
  end.

(** The world when [backup_server] has made [current], the version
    directory of the campaign and, in [IncrementalBackup.__init__], the
    index directory; [None] when one of them cannot be made. *)
Definition reserved (e : env) (w : world) : option world :=
  match BackupManager.mkdir_exist_ok "current" (server_dir w) with
  | None => None
  | Some d1 =>
      match BackupManager.mkdir_exist_ok (strftime_now e) d1 with
      | None => None
      | Some d2 =>
          match BackupManager.mkdir_exist_ok "hash_index" d2 with
          | None => None
          | Some d3 => Some (set_server_dir d3 w)
          end
      end
  end.

(** The version directories on disk: the directories named by a
    timestamp, that is all but the mirror and the index directory. *)
Definition versions (d : list dirent) : list string :=
  map name
    (List.filter
       (fun x => is_dir x && negb (String.eqb (name x) "current")
                 && negb (String.eqb (name x) "hash_index")) d).

Definition is_transfer (ev : event) : bool :=
  match ev with
  | EScpGetTree _ _ | EScpGetFile _ _ => true
  | _ => false
  end.

(** The directories retention sets out to delete on a server directory:
    what lies beyond the limit in the sorted list. *)
Definition old_backups (e : env) (d : list dirent) : list dirent :=
  BackupManager.slice_from (BackupManager.sort_desc (BackupManager.backup_dirs d))
    (max_backup_versions e).

Definition removals (old : list dirent) : list event :=
  map (fun x => ERmtree (name x)) old.

(** [desc x y]: the name of [x] is not below the name of [y]. *)
Definition desc (x y : dirent) : Prop := String.leb (name y) (name x) = true.

(** The entries a deletion loop over [old] removes from a directory:
    those named in [old] whose [rmtree] succeeds. *)
Definition removed_by (e : env) (old : list dirent) (x : dirent) : bool :=
  existsb (String.eqb (name x)) (map name old) && rmtree_ok e (name x).

(** The single-file transfers of the incremental operations on [paths],
    every file of every tree, path after path. *)
Definition per_file_transfers (e : env) (paths : list string) : list event :=
  flat_map
    (fun p => file_events e p (local_path_of e p) (find_files e p)) paths.

(** A server directory that holds the mirror and four versions, listed in
    no particular order. *)
Definition versions_world : world :=
  {| server_dir := [dir "20240103_020000"; dir "current"; dir "20240101_020000";
                    dir "20240104_020000"; dir "20240102_020000"];
     hash_index_file := FileAbsent; ticks := 0; trace := [] |}.

(** ** Further vocabulary *)

(** The index a pass over [files] leaves from [index]: every file whose
    digest can be read is recorded under that digest, the rest of the
    index is as before. *)
Definition recorded (e : env) (files : list string)
    (index : gmap string string) (k : string) : option string :=
  if decide (k ∈ files /\ md5sum e k <> "") then Some (md5sum e k)
  else index !! k.

(** The copy of a file of the work list goes through: its directory can
    be made and the transfer returns. *)
Definition copied_ok (e : env) (remote_path local_path file_path : string)
    : bool :=
  makedirs_ok e (dirname e (local_file_path e remote_path local_path file_path))
  && scp_get_file e file_path.

(** The bytes the copy loop adds to the progress bar for a work list. *)
Definition copied_bytes (e : env) (remote_path local_path : string)
    (files : list string) : Z :=
  fold_right Z.add 0
    (map (fun f => if copied_ok e remote_path local_path f
                   then Z.max 0 (stat_size e f) else 0) files).

(** The clock readings of the [update] calls that drew the bar. *)
Fixpoint render_times (pb : ProgressBar.t) (calls : list ProgressBar.call)
    : list Q :=
  match calls with
  | [] => []
  | c :: calls =>
      let r := ProgressBar.update pb (ProgressBar.c_current c)
                 (ProgressBar.c_file c) (ProgressBar.c_bytes c)
                 (ProgressBar.c_now c) in
      match snd r with
      | Some _ => ProgressBar.c_now c :: render_times (fst r) calls
      | None => render_times (fst r) calls
      end
  end.

(** Two clock readings at least a tenth of a second apart. *)
Definition apart (a b : Q) : Prop := (a + (1 # 10) <= b)%Q.

(** The directories retention keeps on a server directory: what comes
    first in the sorted list, up to the limit. *)
Definition kept_backups (e : env) (d : list dirent) : list dirent :=
  take (Z.to_nat (max_backup_versions e))
    (BackupManager.sort_desc (BackupManager.backup_dirs d)).

(** Every removal retention sets out to make on a directory succeeds. *)
Definition removals_succeed (e : env) (d : list dirent) : bool :=
  forallb (fun x => rmtree_ok e (name x)) (old_backups e d).

(** Every directory other than [current] and the index directory has a
    name below [hash_index], as the timestamps have. *)
Definition names_below_index (d : list dirent) : Prop :=
  forall x, x ∈ BackupManager.backup_dirs d ->
    name x <> "hash_index" -> String.ltb (name x) "hash_index" = true.

Definition is_disk_change (ev : event) : bool :=
  match ev with
  | ERmtree _ | ECopytree _ => true
  | _ => false
  end.

(** The same host with another answer of [os.makedirs]. *)
Definition with_makedirs (mk : string -> bool) (e : env) : env :=
  {| connect_ok := connect_ok e; find_files := find_files e;
     md5sum := md5sum e; stat_size := stat_size e;
     count_files := count_files e; scp_get_tree := scp_get_tree e;
     scp_get_file := scp_get_file e; makedirs_ok := mk;
     relpath := relpath e; join := join e; dirname := dirname e;
     local_path_of := local_path_of e; write_index := write_index e;
     rmtree_ok := rmtree_ok e; copytree := copytree e; time_at := time_at e;
     strftime_now := strftime_now e;
     show_current_file := show_current_file e;
     max_backup_versions := max_backup_versions e |}.

(** ** [BackupManager.run_backup]

    One entry of [config['servers']]: its name, which names its directory
    under the backup directory, what its host and the local machine answer
    during its campaign, and its remote paths. *)
Record server := {
  server_name  : string;
  server_env   : env;
  remote_paths : list string
}.

(** The server directory of a name on a disk that maps names to server
    directories; a name never backed up has none yet. *)
Definition world_of (disk : gmap string world) (n : string) : world :=
  default {| server_dir := []; hash_index_file := FileAbsent;
             ticks := 0; trace := [] |} (disk !! n).

(** The loop of [run_backup] over the servers, with its counter; [None]
    when a campaign raises, which ends the loop. *)
Fixpoint run_servers (servers : list server) (success_count : Z)
    (disk : gmap string world) : option (Z * gmap string world) :=
  match servers with
  | [] => Some (success_count, disk)
  | s :: rest =>
      match BackupManager.backup_server (server_env s) (remote_paths s)
              (world_of disk (server_name s)) with
      | None => None
      | Some (ok, w') =>
          run_servers rest (if ok then success_count + 1 else success_count)
            (<[server_name s := w']> disk)
      end
  end.

(** [run_backup]: [success_count == total_count]. *)
Definition run_backup (servers : list server) (disk : gmap string world)
    : option (bool * gmap string world) :=
  match run_servers servers 0 disk with
  | None => None
  | Some (success_count, disk') =>
      Some (success_count =? Z.of_nat (length servers), disk')
  end.

(** What the campaigns of the servers return, in order, each one run on
    the disk the earlier ones left. *)
Fixpoint campaign_results (servers : list server) (disk : gmap string world)
    : option (list bool) :=
  match servers with
  | [] => Some []
  | s :: rest =>
      match BackupManager.backup_server (server_env s) (remote_paths s)
              (world_of disk (server_name s)) with
      | None => None
      | Some (ok, w') =>
          match campaign_results rest (<[server_name s := w']> disk) with
          | None => None
          | Some results => Some (ok :: results)
          end
      end
  end.

(** The version directory [stamp] is the newest on a server directory:
    every other directory but [current] and the index directory has a
    name below it, and its own name is below [hash_index]. *)
Definition newest_version (stamp : string) (d : list dirent) : Prop :=
  String.ltb stamp "hash_index" = true
  /\ forall x, x ∈ BackupManager.backup_dirs d ->
       name x = stamp \/ name x = "hash_index"
       \/ String.ltb (name x) stamp = true.
(** * The hash index *)

(** The decision computed by the code and the one worded by the
    specification agree on every index, path and answer of the host. *)
Lemma should_backup_file_eq
    (e : env) (p : string) (index : gmap string string) :
  IncrementalBackup.should_backup_file e p index
  = shouldInclude index p (md5sum e p).
Proof.
  unfold IncrementalBackup.should_backup_file, shouldInclude,
    IncrementalBackup.get_remote_file_hash.
  destruct (String.eqb_spec (md5sum e p) "") as [Hd | Hd].
  - by rewrite decide_True.
  - rewrite decide_False by done.
    destruct (index !! p) as [stored |] eqn:Hp; simpl.
    + destruct (String.eqb_spec (md5sum e p) stored) as [-> | Hne]; simpl.
      * by rewrite decide_True.
      * rewrite decide_False; [done | congruence].
    + destruct (String.eqb_spec (md5sum e p) "") as [? | _]; [done | done].
Qed.

(** C3. For every path and every live digest the remote host can answer,
    [should_backup_file] is the inclusion decision of the specification:
    empty digest, include and keep the index; no entry or a different
    stored digest, record the live digest and include; equal stored
    digest, exclude and keep the index. *)
Theorem should_backup_file_refines_shouldInclude
    (e : env) (p : string) (index : gmap string string) :
  IncrementalBackup.should_backup_file e p index
  = shouldInclude index p (md5sum e p).
Proof. exact (should_backup_file_eq e p index). Qed.

(** * The progress bar *)

Lemma update_counters (pb : ProgressBar.t) cur file bytes now :
  let pb' := fst (ProgressBar.update pb cur file bytes now) in
  ProgressBar.current pb' = cur
  /\ ProgressBar.transferred_size pb'
     = ProgressBar.transferred_size pb + Z.max 0 bytes.
Proof.
  unfold ProgressBar.update; simpl.
  destruct (ProgressBar.Qltb _ _); simpl;
    (split; [reflexivity |]); destruct (Z.ltb_spec 0 bytes); lia.
Qed.

Lemma last_cons_default {A} (l : list A) : forall x a b : A,
  List.last (x :: l) a = List.last (x :: l) b.
Proof.
  induction l as [| y l IH]; intros x a b; [done |].
  change (List.last (y :: l) a = List.last (y :: l) b). apply IH.
Qed.

Lemma run_counters (calls : list ProgressBar.call) : forall pb : ProgressBar.t,
  ProgressBar.current (ProgressBar.run pb calls)
  = last_current (ProgressBar.current pb) calls
  /\ ProgressBar.transferred_size (ProgressBar.run pb calls)
     = ProgressBar.transferred_size pb + sum_positive_bytes calls.
Proof.
  induction calls as [| c calls IH]; intros pb.
  - unfold sum_positive_bytes, last_current; simpl. split; [done | lia].
  - set (pb1 := fst (ProgressBar.update pb (ProgressBar.c_current c)
                      (ProgressBar.c_file c) (ProgressBar.c_bytes c)
                      (ProgressBar.c_now c))).
    change (ProgressBar.run pb (c :: calls)) with (ProgressBar.run pb1 calls).
    destruct (update_counters pb (ProgressBar.c_current c) (ProgressBar.c_file c)
                (ProgressBar.c_bytes c) (ProgressBar.c_now c)) as [Hc Ht].
    fold pb1 in Hc, Ht.
    destruct (IH pb1) as [IHc IHt].
    rewrite IHc, IHt, Hc, Ht. split.
    + unfold last_current. simpl.
      destruct (map ProgressBar.c_current calls); [done | apply last_cons_default].
    + unfold sum_positive_bytes; simpl. lia.
Qed.

(** The counters of a fresh bar after any sequence of [update] calls,
    whatever the clock reads at each call: the count is the one of the
    last call and the byte counter is the sum of the positive
    [itemBytes]; [finish] prints that counter when it is positive. *)
Lemma progress_counters_ignore_throttling
    (total : Z) (label : string) (show : bool) (t0 now : Q)
    (calls : list ProgressBar.call) :
  let pb := ProgressBar.run (ProgressBar.init total label show t0) calls in
  ProgressBar.current pb = last_current 0 calls
  /\ ProgressBar.transferred_size pb = sum_positive_bytes calls
  /\ ProgressBar.f_total_bytes (ProgressBar.finish pb now)
     = (if 0 <? sum_positive_bytes calls
        then Some (sum_positive_bytes calls) else None).
Proof.
  intros pb.
  destruct (run_counters calls (ProgressBar.init total label show t0))
    as [Hc Ht].
  simpl in Hc, Ht. fold pb in Hc, Ht.
  split; [exact Hc |]. split; [lia |].
  unfold ProgressBar.finish; simpl. by rewrite Ht.
Qed.

(** Two runs of the same calls, one with the clock standing still (every
    rendering is throttled) and one with a second between the calls
    (every call is drawn): the displays differ, the counters do not. *)
Example throttling_changes_display_only :
  let slow n := {| ProgressBar.c_current := n; ProgressBar.c_file := "f";
                   ProgressBar.c_bytes := 100;
                   ProgressBar.c_now := inject_Z n |} in
  let fast n := {| ProgressBar.c_current := n; ProgressBar.c_file := "f";
                   ProgressBar.c_bytes := 100; ProgressBar.c_now := 0%Q |} in
  let pb := ProgressBar.init 3 "p" true 0%Q in
  length (ProgressBar.renderings pb [slow 1; slow 2; slow 3]) = 3%nat
  /\ ProgressBar.renderings pb [fast 1; fast 2; fast 3] = []
  /\ ProgressBar.transferred_size (ProgressBar.run pb [slow 1; slow 2; slow 3])
     = 300
  /\ ProgressBar.transferred_size (ProgressBar.run pb [fast 1; fast 2; fast 3])
     = 300.
Proof. vm_compute. auto. Qed.





(** * One directory operation *)

Lemma time_time_trace (e : env) (w : world) :
  trace (snd (time_time e w)) = trace w.
Proof. done. Qed.

Lemma time_time_hash_index_file (e : env) (w : world) :
  hash_index_file (snd (time_time e w)) = hash_index_file w.
Proof. done. Qed.

Lemma time_time_server_dir (e : env) (w : world) :
  server_dir (snd (time_time e w)) = server_dir w.
Proof. done. Qed.

Lemma emit_trace (ev : event) (w : world) :
  trace (emit ev w) = (trace w ++ [ev])%list.
Proof. done. Qed.

Lemma emit_hash_index_file (ev : event) (w : world) :
  hash_index_file (emit ev w) = hash_index_file w.
Proof. done. Qed.

Lemma emit_server_dir (ev : event) (w : world) :
  server_dir (emit ev w) = server_dir w.
Proof. done. Qed.

Lemma save_hash_index_trace (e : env) (idx : gmap string string) (w : world) :
  trace (IncrementalBackup.save_hash_index e idx w)
  = (trace w ++ [EWriteIndex idx])%list.
Proof.
  unfold IncrementalBackup.save_hash_index. by destruct (write_index e idx).
Qed.

Lemma save_hash_index_hash_index_file (e : env) (idx : gmap string string) (w : world) :
  hash_index_file (IncrementalBackup.save_hash_index e idx w)
  = written e idx (hash_index_file w).
Proof.
  unfold IncrementalBackup.save_hash_index, written.
  by destruct (write_index e idx).
Qed.

Lemma save_hash_index_server_dir (e : env) (idx : gmap string string) (w : world) :
  server_dir (IncrementalBackup.save_hash_index e idx w) = server_dir w.
Proof.
  unfold IncrementalBackup.save_hash_index. by destruct (write_index e idx).
Qed.

Create Rewrite HintDb world.
#[export] Hint Rewrite time_time_trace time_time_hash_index_file time_time_server_dir
  emit_trace emit_hash_index_file emit_server_dir
  save_hash_index_trace save_hash_index_hash_index_file save_hash_index_server_dir
  : world.

(** The copy loop visits every file of the work list, whatever happens to
    the files before it, and touches neither the index file nor the
    server directory. *)
Lemma copy_files_world (e : env) (rp lp : string) (files : list string) :
  forall (c : Z) (pb : ProgressBar.t) (w : world),
    let r := SSHBackup.copy_files e rp lp files c pb w in
    fst (fst r) = c + Z.of_nat (length files)
    /\ trace (snd r) = (trace w ++ file_events e rp lp files)%list
    /\ hash_index_file (snd r) = hash_index_file w
    /\ server_dir (snd r) = server_dir w.
Proof.
  induction files as [| f files IH]; intros c pb w.
  - simpl. rewrite app_nil_r. repeat split; lia.
  - cbn [SSHBackup.copy_files].
    match goal with
    | |- context [SSHBackup.copy_files e rp lp files ?c' ?pb' ?w'] =>
        destruct (IH c' pb' w') as (Hc & Ht & Hh & Hd)
    end.
    cbv zeta. rewrite Hc, Ht, Hh, Hd.
    unfold file_events at 2. cbn [flat_map]. fold (file_events e rp lp files).
    unfold local_file_path.
    destruct (makedirs_ok e (dirname e (join e lp (relpath e f rp))));
      [destruct (scp_get_file e f) |]; simpl;
      rewrite <- ?app_assoc; simpl; repeat split; try lia; reflexivity.
Qed.

(** A scan that selects nothing has left the index as it was. *)
Lemma select_files_nil (e : env) (files : list string) :
  forall idx : gmap string string,
    fst (SSHBackup.select_files e files idx) = [] ->
    snd (SSHBackup.select_files e files idx) = idx.
Proof.
  induction files as [| f files IH]; intros idx; [done |].
  cbn [SSHBackup.select_files]. cbv zeta.
  rewrite should_backup_file_eq.
  unfold shouldInclude.
  destruct (decide (md5sum e f = "")); simpl; [done |].
  destruct (idx !! f) as [stored |]; simpl; [| done].
  destruct (decide (stored = md5sum e f)); simpl; [| done].
  apply IH.
Qed.

(** The incremental branch, spelled out. *)
Lemma download_incremental (e : env) (rp lp : string)
    (self : SSHBackup.t) (w : world) :
  makedirs_ok e lp = true ->
  IncrementalBackup.is_first_backup (SSHBackup.hash_index self) = false ->
  let sel := SSHBackup.select_files e (find_files e rp) (SSHBackup.hash_index self) in
  let r := SSHBackup.download_directory e rp lp self w in
  fst (fst r) = true
  /\ SSHBackup.hash_index (snd (fst r)) = snd sel
  /\ (fst sel = [] -> snd r = w)
  /\ (fst sel <> [] ->
      SSHBackup.copied_files (snd (fst r)) = Z.of_nat (length (fst sel))
      /\ trace (snd r)
         = (trace w ++ file_events e rp lp (fst sel) ++ [EWriteIndex (snd sel)])%list
      /\ hash_index_file (snd r) = written e (snd sel) (hash_index_file w)
      /\ server_dir (snd r) = server_dir w).
Proof.
  intros Hmk Hinc sel r. subst r.
  unfold SSHBackup.download_directory.
  rewrite Hmk, Hinc. cbn [negb]. cbv zeta.
  unfold IncrementalBackup.get_remote_file_list. fold sel.
  destruct (fst sel) as [| f files] eqn:Hsel.
  - simpl. repeat split; done.
  - replace (Z.of_nat (length (f :: files)) =? 0) with false
      by (symmetry; apply Z.eqb_neq; simpl; lia).
    cbn [fst snd].
    split; [done |]. split; [done |]. split; [done |]. intros _.
    autorewrite with world.
    match goal with
    | |- context [SSHBackup.copy_files e rp lp ?fs ?c ?pb ?w'] =>
        destruct (copy_files_world e rp lp fs c pb w') as (Hc & Ht & Hh & Hd)
    end.
    cbv zeta in Hc, Ht, Hh, Hd. rewrite Hc, Ht, Hh, Hd.
    autorewrite with world. rewrite <- app_assoc.
    repeat split; lia.
Qed.

(** The full branch, spelled out. *)
Lemma download_full (e : env) (rp lp : string)
    (self : SSHBackup.t) (w : world) :
  makedirs_ok e lp = true ->
  IncrementalBackup.is_first_backup (SSHBackup.hash_index self) = true ->
  let idx := SSHBackup.build_hash_index_after_full_backup e rp
               (SSHBackup.hash_index self) in
  let r := SSHBackup.download_directory e rp lp self w in
  fst (fst r) = scp_get_tree e rp
  /\ SSHBackup.hash_index (snd (fst r))
     = (if scp_get_tree e rp then idx else SSHBackup.hash_index self)
  /\ trace (snd r)
     = (trace w ++ EScpGetTree rp lp
          :: (if scp_get_tree e rp then [EWriteIndex idx] else []))%list
  /\ hash_index_file (snd r)
     = (if scp_get_tree e rp then written e idx (hash_index_file w) else hash_index_file w)
  /\ server_dir (snd r) = server_dir w.
Proof.
  intros Hmk Hfull idx r. subst r.
  unfold SSHBackup.download_directory.
  rewrite Hmk, Hfull. cbn [negb]. cbv zeta. fold idx.
  destruct (scp_get_tree e rp), (0 <? count_files e rp),
    (SSHBackup.progress_bar self); cbn [fst snd];
    autorewrite with world; rewrite <- ?app_assoc; repeat split; reflexivity.
Qed.

Lemma download_mkdir_fails (e : env) (rp lp : string)
    (self : SSHBackup.t) (w : world) :
  makedirs_ok e lp = false ->
  let r := SSHBackup.download_directory e rp lp self w in
  fst (fst r) = false
  /\ SSHBackup.hash_index (snd (fst r)) = SSHBackup.hash_index self
  /\ snd r = w.
Proof.
  intros Hmk. unfold SSHBackup.download_directory. by rewrite Hmk.
Qed.

(** C4. In the incremental copy loop a file whose copy fails does not stop
    the loop: whatever the single-file transfers do, every file of the
    work list is counted, the transfer of every file whose directory
    could be made is started, in order, the index is then written, and
    the directory operation returns success. *)
Theorem copy_failure_does_not_abort (e : env) (rp lp : string)
    (self : SSHBackup.t) (w : world) :
  makedirs_ok e lp = true ->
  IncrementalBackup.is_first_backup (SSHBackup.hash_index self) = false ->
  work_list e rp (SSHBackup.hash_index self) <> [] ->
  let files := work_list e rp (SSHBackup.hash_index self) in
  let r := SSHBackup.download_directory e rp lp self w in
  fst (fst r) = true
  /\ SSHBackup.copied_files (snd (fst r)) = Z.of_nat (length files)
  /\ trace (snd r)
     = (trace w ++ file_events e rp lp files
          ++ [EWriteIndex (SSHBackup.hash_index (snd (fst r)))])%list.
Proof.
  intros Hmk Hinc Hne files r.
  destruct (download_incremental e rp lp self w Hmk Hinc)
    as (Hok & Hidx & _ & Hcopy).
  destruct (Hcopy Hne) as (Hc & Ht & _ & _).
  subst r files. unfold work_list. rewrite Hidx. auto.
Qed.

(** A run of C4 in which every single-file transfer fails: both files
    are still attempted and the operation succeeds. *)
Lemma copy_failure_does_not_abort_witness :
  let e := demo_env true (fun _ => true) (fun _ => false) CopyDone 3 in
  let r := SSHBackup.download_directory e "/srv/www" "current/srv/www"
             (SSHBackup.init stale_index) empty_world in
  fst (fst r) = true
  /\ SSHBackup.copied_files (snd (fst r)) = 2
  /\ trace (snd r)
     = (trace empty_world
        ++ file_events e "/srv/www" "current/srv/www"
             ["/srv/www/a"; "/srv/www/b"]
        ++ [EWriteIndex (SSHBackup.hash_index (snd (fst r)))])%list.
Proof.
  intros e r.
  apply (copy_failure_does_not_abort e "/srv/www" "current/srv/www"
           (SSHBackup.init stale_index) empty_world).
  - reflexivity.
  - vm_compute. reflexivity.
  - vm_compute. discriminate.
Defined.

(** C2 as stated fails: an incremental operation whose scan selects
    nothing returns success at once.  [save_hash_index] does not run (no
    index write is logged) and the index file is left as it was, here
    absent although the index in memory is not empty and a write would
    have succeeded. *)
Lemma empty_scan_skips_persist :
  let e := demo_env true (fun _ => true) (fun _ => true) CopyDone 3 in
  let r := SSHBackup.download_directory e "/srv/www" "current/srv/www"
             (SSHBackup.init demo_index) empty_world in
  fst (fst r) = true
  /\ write_index e (SSHBackup.hash_index (snd (fst r))) = WriteOk
  /\ existsb is_index_write (new_events empty_world (snd r)) = false
  /\ hash_index_file (snd r) <> FileJson (SSHBackup.hash_index (snd (fst r))).
Proof. vm_compute. repeat split; discriminate. Qed.

Lemma new_events_app (w w' : world) (evs : list event) :
  trace w' = (trace w ++ evs)%list -> new_events w w' = evs.
Proof.
  intros H. unfold new_events. rewrite H. apply drop_app_length.
Qed.

(** C2, as the code has it. A directory operation that runs its branch to
    the end returns success and, unless it is an incremental operation
    whose scan selected nothing, its last action is the write of the
    index it ends with (so also when single-file copies failed); the
    index file then holds that index when the write succeeds.  When the
    incremental scan selects nothing, nothing is written: the index in
    memory, the index file and the log are as before the operation. *)
Theorem download_directory_persists (e : env) (rp lp : string)
    (self : SSHBackup.t) (w : world) :
  completes e rp lp (SSHBackup.hash_index self) = true ->
  let r := SSHBackup.download_directory e rp lp self w in
  let idx := SSHBackup.hash_index (snd (fst r)) in
  fst (fst r) = true
  /\ if empty_scan e rp (SSHBackup.hash_index self)
     then idx = SSHBackup.hash_index self
          /\ new_events w (snd r) = []
          /\ hash_index_file (snd r) = hash_index_file w
     else last (new_events w (snd r)) = Some (EWriteIndex idx)
          /\ hash_index_file (snd r) = written e idx (hash_index_file w).
Proof.
  intros Hc r idx. unfold completes in Hc. unfold empty_scan.
  destruct (andb_prop _ _ Hc) as [Hmk Hbranch].
  destruct (IncrementalBackup.is_first_backup (SSHBackup.hash_index self))
    eqn:Hmode; cbn [negb andb].
  - destruct (download_full e rp lp self w Hmk Hmode)
      as (Hok & Hidx & Ht & Hh & _).
    rewrite Hbranch in Hok, Hidx, Ht, Hh. fold r in Hok, Hidx, Ht, Hh.
    subst idx. rewrite Hidx, Hh, (new_events_app _ _ _ Ht). auto.
  - destruct (download_incremental e rp lp self w Hmk Hmode)
      as (Hok & Hidx & Hnil & Hcopy).
    fold r in Hok, Hidx, Hnil, Hcopy. unfold work_list.
    destruct (fst (SSHBackup.select_files e (find_files e rp)
                     (SSHBackup.hash_index self))) as [| f files] eqn:Hsel.
    + cbn [length Nat.eqb]. split; [done |].
      subst idx. rewrite Hidx, (Hnil eq_refl).
      split; [by apply select_files_nil |].
      split; [| done]. apply new_events_app. by rewrite app_nil_r.
    + cbn [length Nat.eqb]. split; [done |].
      destruct Hcopy as (_ & Ht & Hh & _); [done |].
      subst idx. rewrite Hidx, Hh, (new_events_app _ _ _ Ht).
      split; [| done]. by rewrite last_snoc.
Qed.

(** A run of C2 in which one single-file copy fails and the index is
    written all the same. *)
Lemma download_directory_persists_witness :
  let e := demo_env true (fun _ => true) (fun f => String.eqb f "/srv/www/a") CopyDone 3 in
  let r := SSHBackup.download_directory e "/srv/www" "current/srv/www"
             (SSHBackup.init stale_index) empty_world in
  fst (fst r) = true
  /\ last (new_events empty_world (snd r))
     = Some (EWriteIndex (SSHBackup.hash_index (snd (fst r))))
  /\ hash_index_file (snd r)
     = written e (SSHBackup.hash_index (snd (fst r))) FileAbsent.
Proof.
  intros e r.
  exact (download_directory_persists e "/srv/www" "current/srv/www"
           (SSHBackup.init stale_index) empty_world eq_refl).
Defined.

(** * Mode selection *)

Lemma is_first_backup_empty (idx : gmap string string) :
  IncrementalBackup.is_first_backup idx = true <-> idx = ∅.
Proof.
  unfold IncrementalBackup.is_first_backup.
  rewrite bool_decide_eq_true. apply map_size_empty_iff.
Qed.





(** * Repeated incremental scans *)

(** A scan never overwrites an entry that already holds the live digest. *)
Lemma select_files_keeps_live (e : env) (files : list string) (k : string) :
  forall idx : gmap string string,
    idx !! k = Some (md5sum e k) ->
    snd (SSHBackup.select_files e files idx) !! k = Some (md5sum e k).
Proof.
  induction files as [| f files IH]; intros idx Hk; [done |].
  cbn [SSHBackup.select_files]. cbv zeta. cbn [snd].
  apply IH. rewrite should_backup_file_eq. unfold shouldInclude.
  destruct (decide (md5sum e f = "")); [done |].
  assert (<[f := md5sum e f]> idx !! k = Some (md5sum e k)) as Hins.
  { destruct (decide (f = k)) as [-> | Hne];
      [apply lookup_insert_eq | by rewrite lookup_insert_ne]. }
  destruct (idx !! f) as [stored |]; [| done].
  by destruct (decide (stored = md5sum e f)).
Qed.

(** A scan never removes a key. *)
Lemma select_files_keeps_keys (e : env) (files : list string) (k : string) :
  forall idx : gmap string string,
    is_Some (idx !! k) ->
    is_Some (snd (SSHBackup.select_files e files idx) !! k).
Proof.
  induction files as [| f files IH]; intros idx Hk; [done |].
  cbn [SSHBackup.select_files]. cbv zeta. cbn [snd].
  apply IH. rewrite should_backup_file_eq. unfold shouldInclude.
  destruct (decide (md5sum e f = "")); [done |].
  assert (is_Some (<[f := md5sum e f]> idx !! k)) as Hins.
  { rewrite lookup_insert_is_Some. destruct (decide (f = k)); auto. }
  destruct (idx !! f) as [stored |]; [| done].
  by destruct (decide (stored = md5sum e f)).
Qed.

(** After a scan, every scanned file whose digest could be read is in the
    index under that digest. *)
Lemma select_files_records (e : env) (files : list string) :
  forall idx : gmap string string,
    Forall (fun f => md5sum e f <> "") files ->
    Forall (fun f => snd (SSHBackup.select_files e files idx) !! f
                     = Some (md5sum e f)) files.
Proof.
  induction files as [| f files IH]; intros idx Hd; [constructor |].
  apply Forall_cons in Hd as [Hf Hd].
  cbn [SSHBackup.select_files]. cbv zeta. cbn [snd].
  constructor; [| by apply IH].
  apply select_files_keeps_live.
  rewrite should_backup_file_eq. unfold shouldInclude.
  rewrite decide_False by done.
  destruct (idx !! f) as [stored |] eqn:Hl; cbn [snd].
  - destruct (decide (stored = md5sum e f)) as [<- | _]; cbn [snd];
      [done | apply lookup_insert_eq].
  - apply lookup_insert_eq.
Qed.

(** A scan over files that are all in the index under their live digest
    selects nothing and leaves the index alone. *)
Lemma select_files_known (e : env) (files : list string)
    (idx : gmap string string) :
  Forall (fun f => md5sum e f <> "") files ->
  Forall (fun f => idx !! f = Some (md5sum e f)) files ->
  SSHBackup.select_files e files idx = ([], idx).
Proof.
  induction 1 as [| f files Hf _ IH]; intros Hk; [done |].
  apply Forall_cons in Hk as [Hkf Hk].
  cbn [SSHBackup.select_files]. cbv zeta.
  rewrite should_backup_file_eq. unfold shouldInclude.
  rewrite decide_False, Hkf, decide_True by done. cbn [fst snd].
  by rewrite (IH Hk).
Qed.

(** C6. Let an incremental backup of a remote path run with the digest of
    every file readable and end with the index file holding its index.
    A backup of the same path started right after it from that file,
    against the same remote state, is incremental again, selects no file,
    transfers and writes nothing, and succeeds. *)
Theorem second_incremental_run_selects_nothing (e : env) (rp lp : string)
    (self : SSHBackup.t) (w : world) :
  makedirs_ok e lp = true ->
  IncrementalBackup.is_first_backup (SSHBackup.hash_index self) = false ->
  Forall (fun f => md5sum e f <> "") (find_files e rp) ->
  let r1 := SSHBackup.download_directory e rp lp self w in
  hash_index_file (snd r1) = FileJson (SSHBackup.hash_index (snd (fst r1))) ->
  let again :=
    SSHBackup.init (IncrementalBackup.load_hash_index (hash_index_file (snd r1))) in
  let r2 := SSHBackup.download_directory e rp lp again (snd r1) in
  IncrementalBackup.is_first_backup (SSHBackup.hash_index again) = false
  /\ work_list e rp (SSHBackup.hash_index again) = []
  /\ fst (fst r2) = true
  /\ new_events (snd r1) (snd r2) = []
  /\ SSHBackup.hash_index (snd (fst r2)) = SSHBackup.hash_index (snd (fst r1)).
Proof.
  intros Hmk Hinc Hdig r1 Hsaved again r2.
  destruct (download_incremental e rp lp self w Hmk Hinc) as (_ & Hidx & _).
  fold r1 in Hidx.
  assert (SSHBackup.hash_index again = SSHBackup.hash_index (snd (fst r1)))
    as Hagain by (subst again; rewrite Hsaved; reflexivity).
  assert (SSHBackup.select_files e (find_files e rp) (SSHBackup.hash_index again)
          = ([], SSHBackup.hash_index again)) as Hsel.
  { apply select_files_known; [exact Hdig |].
    rewrite Hagain, Hidx. by apply select_files_records. }
  assert (IncrementalBackup.is_first_backup (SSHBackup.hash_index again) = false)
    as Hinc2.
  { destruct (IncrementalBackup.is_first_backup (SSHBackup.hash_index again))
      eqn:Hfirst; [| done].
    apply is_first_backup_empty in Hfirst.
    assert (SSHBackup.hash_index self <> ∅) as Hne.
    { intros Hempty. apply is_first_backup_empty in Hempty. congruence. }
    apply map_choose in Hne as (k & v & Hk).
    destruct (select_files_keeps_keys e (find_files e rp) k
                (SSHBackup.hash_index self)) as [v' Hv']; [by eexists |].
    rewrite <- Hidx, <- Hagain, Hfirst, lookup_empty in Hv'. done. }
  destruct (download_incremental e rp lp again (snd r1) Hmk Hinc2)
    as (Hok & Hidx2 & Hnil & _).
  fold r2 in Hok, Hidx2, Hnil. rewrite Hsel in Hidx2, Hnil. cbn [fst snd] in *.
  split; [done |]. split; [unfold work_list; by rewrite Hsel |].
  split; [done |]. split.
  - rewrite (Hnil eq_refl). unfold new_events. by rewrite drop_all.
  - by rewrite Hidx2.
Qed.

(** A run of C6: the first backup fetches the changed file [a] and the
    new file [b], the second one has nothing to do. *)
Lemma second_incremental_run_selects_nothing_witness :
  let e := demo_env true (fun _ => true) (fun _ => true) CopyDone 3 in
  let r1 := SSHBackup.download_directory e "/srv/www" "current/srv/www"
              (SSHBackup.init stale_index) empty_world in
  let again :=
    SSHBackup.init (IncrementalBackup.load_hash_index (hash_index_file (snd r1))) in
  work_list e "/srv/www" stale_index = ["/srv/www/a"; "/srv/www/b"]
  /\ work_list e "/srv/www" (SSHBackup.hash_index again) = [].
Proof.
  intros e r1 again. split; [reflexivity |].
  refine (proj1 (proj2
    (second_incremental_run_selects_nothing e "/srv/www" "current/srv/www"
       (SSHBackup.init stale_index) empty_world eq_refl _ _ _))).
  - vm_compute. reflexivity.
  - repeat constructor; vm_compute; discriminate.
  - vm_compute. reflexivity.
Defined.

(** * Campaigns *)

(** A directory operation only appends to the log and leaves the server
    directory alone. *)
Lemma download_directory_frame (e : env) (rp lp : string)
    (self : SSHBackup.t) (w : world) :
  let r := SSHBackup.download_directory e rp lp self w in
  server_dir (snd r) = server_dir w
  /\ exists evs, trace (snd r) = (trace w ++ evs)%list.
Proof.
  intros r. subst r.
  destruct (makedirs_ok e lp) eqn:Hmk.
  - destruct (IncrementalBackup.is_first_backup (SSHBackup.hash_index self))
      eqn:Hmode.
    + destruct (download_full e rp lp self w Hmk Hmode)
        as (_ & _ & Ht & _ & Hd).
      split; [exact Hd | eauto].
    + destruct (download_incremental e rp lp self w Hmk Hmode)
        as (_ & _ & Hnil & Hcopy).
      destruct (fst (SSHBackup.select_files e (find_files e rp)
                       (SSHBackup.hash_index self))) as [| f files].
      * rewrite (Hnil eq_refl). split; [done |].
        exists []. by rewrite app_nil_r.
      * destruct Hcopy as (_ & Ht & _ & Hd); [done |].
        split; [exact Hd | eauto].
  - destruct (download_mkdir_fails e rp lp self w Hmk) as (_ & _ & ->).
    split; [done |]. exists []. by rewrite app_nil_r.
Qed.

(** The loop over the configured paths: its flag is the conjunction of
    the results of the operations. *)
Lemma backup_paths_world (e : env) (paths : list string) :
  forall (s : bool) (client : SSHBackup.t) (w : world),
    let r := BackupManager.backup_paths e paths s client w in
    fst (fst r) = s && forallb id (path_results e paths client w)
    /\ server_dir (snd r) = server_dir w
    /\ exists evs, trace (snd r) = (trace w ++ evs)%list.
Proof.
  induction paths as [| p paths IH]; intros s client w.
  - simpl. rewrite andb_true_r. split; [done |]. split; [done |].
    exists []. by rewrite app_nil_r.
  - cbn [BackupManager.backup_paths path_results forallb]. cbv zeta.
    destruct (download_directory_frame e p (local_path_of e p) client w)
      as (Hd & evs & Ht).
    match goal with
    | |- context [BackupManager.backup_paths e paths ?s' ?c' ?w'] =>
        destruct (IH s' c' w') as (Hs & Hd' & evs' & Ht')
    end.
    rewrite Hs, Hd', Hd. split; [| split; [done |]].
    + unfold id at 2.
      destruct (fst (fst (SSHBackup.download_directory e p (local_path_of e p)
                            client w))), s; reflexivity.
    + exists (evs ++ evs')%list. by rewrite Ht', Ht, app_assoc.
Qed.

Lemma has_child_mkdir (child : string) (d d' : list dirent) :
  BackupManager.mkdir_exist_ok child d = Some d' ->
  BackupManager.has_child child d' = true.
Proof.
  unfold BackupManager.mkdir_exist_ok, BackupManager.has_child.
  destruct (List.find _ d) as [x |] eqn:Hfind.
  - destruct (is_dir x); [| done]. intros [= <-].
    apply find_some in Hfind as [Hin Hx].
    apply existsb_exists. eauto.
  - intros [= <-]. rewrite existsb_app. simpl.
    by rewrite String.eqb_refl, orb_true_r.
Qed.

Lemma has_child_mkdir_other (child other : string) (d d' : list dirent) :
  BackupManager.mkdir_exist_ok other d = Some d' ->
  BackupManager.has_child child d = true ->
  BackupManager.has_child child d' = true.
Proof.
  unfold BackupManager.mkdir_exist_ok, BackupManager.has_child.
  destruct (List.find _ d) as [x |].
  - destruct (is_dir x); [| done]. by intros [= <-].
  - intros [= <-] H. by rewrite existsb_app, H.
Qed.

(** Once the directories are made, the version directory of the campaign
    is on disk. *)
Lemma reserved_has_version (e : env) (w w1 : world) :
  reserved e w = Some w1 ->
  BackupManager.has_child (strftime_now e) (server_dir w1) = true.
Proof.
  unfold reserved.
  destruct (BackupManager.mkdir_exist_ok "current" (server_dir w))
    as [d1 |]; [| done].
  destruct (BackupManager.mkdir_exist_ok (strftime_now e) d1)
    as [d2 |] eqn:H2; [| done].
  destruct (BackupManager.mkdir_exist_ok "hash_index" d2)
    as [d3 |] eqn:H3; [| done].
  intros [= <-]. simpl.
  eapply has_child_mkdir_other; [exact H3 |]. by eapply has_child_mkdir.
Qed.

(** [backup_server] after the directories are made. *)
Lemma backup_server_reserved (e : env) (paths : list string) (w w1 : world) :
  reserved e w = Some w1 ->
  BackupManager.backup_server e paths w
  = if negb (connect_ok e) then Some (false, w1)
    else
      let r := BackupManager.backup_paths e paths true
                 (SSHBackup.init (IncrementalBackup.load_hash_index (hash_index_file w1)))
                 w1 in
      if fst (fst r) then Some (true, BackupManager.publish e (snd r))
      else Some (false, BackupManager.rollback e (snd r)).
Proof.
  unfold reserved, BackupManager.backup_server.
  destruct (BackupManager.mkdir_exist_ok "current" (server_dir w))
    as [d1 |]; [| done].
  destruct (BackupManager.mkdir_exist_ok (strftime_now e) d1)
    as [d2 |]; [| done].
  destruct (BackupManager.mkdir_exist_ok "hash_index" d2)
    as [d3 |]; [| done].
  by intros [= <-].
Qed.

(** When the connection fails, [backup_server] returns from inside the
    [try]: the branch that removes the version directory is not reached
    and the directory made for the campaign stays on disk. *)
Lemma connect_failure_skips_rollback (e : env) (paths : list string)
    (w w1 : world) :
  reserved e w = Some w1 ->
  connect_ok e = false ->
  BackupManager.backup_server e paths w = Some (false, w1)
  /\ BackupManager.has_child (strftime_now e) (server_dir w1) = true.
Proof.
  intros Hres Hconn.
  rewrite (backup_server_reserved e paths w w1 Hres), Hconn.
  split; [done | by eapply reserved_has_version].
Qed.

Lemma has_child_filter_out (child : string) (d : list dirent) :
  BackupManager.has_child child
    (List.filter (fun x => negb (String.eqb (name x) child)) d) = false.
Proof.
  unfold BackupManager.has_child.
  induction d as [| x d IH]; [done |]. simpl.
  destruct (String.eqb (name x) child) eqn:Hx; simpl; [done |].
  by rewrite Hx.
Qed.

(** When the connection succeeds and a path fails, the version directory
    is removed (provided [rmtree] itself succeeds). *)
Lemma path_failure_rolls_back (e : env) (paths : list string) (w w1 : world) :
  reserved e w = Some w1 ->
  connect_ok e = true ->
  forallb id
    (path_results e paths
       (SSHBackup.init (IncrementalBackup.load_hash_index (hash_index_file w1))) w1)
  = false ->
  rmtree_ok e (strftime_now e) = true ->
  exists w', BackupManager.backup_server e paths w = Some (false, w')
    /\ BackupManager.has_child (strftime_now e) (server_dir w') = false.
Proof.
  intros Hres Hconn Hfail Hrm.
  rewrite (backup_server_reserved e paths w w1 Hres), Hconn. cbn [negb]. cbv zeta.
  destruct (backup_paths_world e paths true
              (SSHBackup.init (IncrementalBackup.load_hash_index (hash_index_file w1)))
              w1) as (Hs & Hd & _).
  cbv zeta in Hs, Hd. rewrite Hs, Hfail. cbn [andb].
  eexists; split; [reflexivity |].
  unfold BackupManager.rollback.
  rewrite Hd, (reserved_has_version e w w1 Hres).
  unfold BackupManager.rmtree. rewrite Hrm. cbn [snd server_dir].
  autorewrite with world. rewrite Hd. apply has_child_filter_out.
Qed.

(** C1, at a failing input. The host cannot be reached: [backup_server]
    returns failure, and the version directory [20240105_020000] that it
    made for this campaign, which was not there before, is still on
    disk; no removal was attempted.  On the same disk, a campaign whose
    connection succeeds and whose bulk copy fails does remove it. *)
Theorem connect_failure_leaves_version_dir :
  let down := demo_env false (fun _ => true) (fun _ => true) CopyDone 3 in
  let broken := demo_env true (fun _ => false) (fun _ => true) CopyDone 3 in
  (exists w',
     BackupManager.backup_server down ["/srv/www"] empty_world = Some (false, w')
     /\ versions (server_dir empty_world) = []
     /\ versions (server_dir w') = ["20240105_020000"]
     /\ trace w' = [])
  /\ (exists w',
        BackupManager.backup_server broken ["/srv/www"] empty_world
        = Some (false, w')
        /\ versions (server_dir w') = []).
Proof.
  split; eexists; (split; [vm_compute; reflexivity |]); vm_compute; auto.
Qed.

(** * Retention *)

Lemma rmtree_trace (e : env) (child : string) (w : world) :
  trace (snd (BackupManager.rmtree e child w)) = (trace w ++ [ERmtree child])%list.
Proof. unfold BackupManager.rmtree. by destruct (rmtree_ok e child). Qed.

(** The deletion loop tries every entry, whatever the earlier ones did. *)
Lemma remove_all_trace (e : env) (old : list dirent) :
  forall w : world,
    trace (BackupManager.remove_all e old w) = (trace w ++ removals old)%list.
Proof.
  unfold BackupManager.remove_all, removals.
  induction old as [| x old IH]; intros w; simpl.
  - by rewrite app_nil_r.
  - rewrite IH, rmtree_trace, <- app_assoc. reflexivity.
Qed.

Lemma cleanup_old_backups_events (e : env) (w : world) :
  new_events w (BackupManager.cleanup_old_backups e w)
  = removals (old_backups e (server_dir w)).
Proof.
  apply new_events_app. unfold BackupManager.cleanup_old_backups.
  apply remove_all_trace.
Qed.

(** C8. When the connection succeeds and every remote path of the
    campaign succeeds, but copying [current] into the version directory
    raises, [backup_server] still returns success, and retention still
    runs: the world it leaves is the one [cleanup_old_backups] makes of
    the disk after the failed copy, with its removals logged. *)
Theorem snapshot_failure_is_not_fatal (e : env) (paths : list string)
    (w w1 : world) :
  reserved e w = Some w1 ->
  connect_ok e = true ->
  let client :=
    SSHBackup.init (IncrementalBackup.load_hash_index (hash_index_file w1)) in
  forallb id (path_results e paths client w1) = true ->
  let w2 := snd (BackupManager.backup_paths e paths true client w1) in
  let copy := BackupManager.copy_backup_to_version e (strftime_now e) w2 in
  fst copy = false ->
  let w3 := BackupManager.cleanup_old_backups e (snd copy) in
  BackupManager.backup_server e paths w = Some (true, w3)
  /\ new_events (snd copy) w3 = removals (old_backups e (server_dir (snd copy))).
Proof.
  intros Hres Hconn client Hall w2 copy Hraise w3.
  split; [| apply cleanup_old_backups_events].
  rewrite (backup_server_reserved e paths w w1 Hres), Hconn. cbn [negb]. cbv zeta.
  destruct (backup_paths_world e paths true client w1) as (Hs & _).
  cbv zeta in Hs. fold client. rewrite Hs, Hall. reflexivity.
Qed.

(** A run of C8: the snapshot copy raises half way; the campaign succeeds
    and retention removes the two oldest versions. *)
Lemma snapshot_failure_is_not_fatal_witness :
  let e := demo_env true (fun _ => true) (fun _ => true) CopyRaisedPartial 3 in
  exists w3,
    BackupManager.backup_server e ["/srv/www"; "/srv/db"] used_world
    = Some (true, w3)
    /\ new_events used_world w3
       = [ERmtree "20240105_020000"; ECopytree "20240105_020000";
          ERmtree "20240103_020000"; ERmtree "20240102_020000"].
Proof.
  intros e.
  destruct (snapshot_failure_is_not_fatal e ["/srv/www"; "/srv/db"] used_world
              (set_server_dir (server_dir used_world ++ [dir "20240105_020000"])
                 used_world))
    as [Hrun _].
  - vm_compute. reflexivity.
  - reflexivity.
  - vm_compute. reflexivity.
  - vm_compute. reflexivity.
  - eexists. split; [exact Hrun |]. vm_compute. reflexivity.
Defined.

(** ** The order on names *)

Lemma leb_iff (a b : string) :
  String.leb a b = true <-> a = b \/ String_as_OT.lt a b.
Proof.
  unfold String.leb.
  destruct (String.compare a b) eqn:Hc.
  - apply String_as_OT.cmp_eq in Hc. tauto.
  - apply String_as_OT.cmp_lt in Hc. tauto.
  - split; [done |]. intros [-> | Hlt].
    + assert (String.compare b b = Eq) as Hb by by apply String_as_OT.cmp_eq.
      congruence.
    + apply String_as_OT.cmp_lt in Hlt. unfold String_as_OT.cmp in Hlt.
      congruence.
Qed.

Lemma leb_trans (a b c : string) :
  String.leb a b = true -> String.leb b c = true -> String.leb a c = true.
Proof.
  rewrite !leb_iff. intros [-> | Hab] [-> | Hbc]; auto.
  right. by eapply String_as_OT.lt_trans.
Qed.

#[local] Instance desc_transitive : Transitive desc.
Proof. intros x y z Hxy Hyz. unfold desc in *. by eapply leb_trans. Qed.

(** ** The sort *)

Lemma insert_desc_perm (x : dirent) (l : list dirent) :
  BackupManager.insert_desc x l ≡ₚ x :: l.
Proof.
  induction l as [| y l IH]; simpl; [done |].
  destruct (String.leb (name y) (name x)); [done |].
  by rewrite IH, Permutation_swap.
Qed.

Lemma sort_desc_perm (l : list dirent) : BackupManager.sort_desc l ≡ₚ l.
Proof.
  unfold BackupManager.sort_desc.
  induction l as [| x l IH]; simpl; [done |].
  by rewrite insert_desc_perm, IH.
Qed.

Lemma insert_desc_hd (x y : dirent) (l : list dirent) :
  desc y x -> HdRel desc y l -> HdRel desc y (BackupManager.insert_desc x l).
Proof.
  intros Hyx Hl. destruct l as [| z l]; simpl; [by constructor |].
  destruct (String.leb (name z) (name x)); constructor; [done |].
  by inversion Hl.
Qed.

Lemma insert_desc_sorted (x : dirent) (l : list dirent) :
  Sorted desc l -> Sorted desc (BackupManager.insert_desc x l).
Proof.
  induction 1 as [| y l Hl IH Hy]; simpl; [by repeat constructor |].
  destruct (String.leb (name y) (name x)) eqn:Hyx.
  - constructor; [by constructor |]. by constructor.
  - constructor; [exact IH |].
    apply insert_desc_hd; [| exact Hy].
    unfold desc. by destruct (String.leb_total (name x) (name y)); [| congruence].
Qed.

Lemma sort_desc_sorted (l : list dirent) :
  StronglySorted desc (BackupManager.sort_desc l).
Proof.
  apply Sorted_StronglySorted; [apply _ |].
  unfold BackupManager.sort_desc.
  induction l as [| x l IH]; simpl; [constructor |].
  by apply insert_desc_sorted.
Qed.

(** * The first campaign of a server *)

(** A scan over files none of which is in the index selects them all. *)
Lemma select_files_fresh (e : env) (files : list string) :
  forall idx : gmap string string,
    NoDup files ->
    (forall f, f ∈ files -> idx !! f = None) ->
    fst (SSHBackup.select_files e files idx) = files.
Proof.
  induction files as [| f files IH]; intros idx Hnd Hfresh; [done |].
  apply NoDup_cons in Hnd as [Hf Hnd].
  cbn [SSHBackup.select_files]. cbv zeta.
  rewrite should_backup_file_eq. unfold shouldInclude.
  rewrite (Hfresh f) by left.
  destruct (decide (md5sum e f = "")); cbn [fst snd]; f_equal.
  - apply IH; [done |]. intros g Hg. apply Hfresh. by right.
  - apply IH; [done |]. intros g Hg.
    rewrite lookup_insert_ne; [apply Hfresh; by right |].
    intros ->. done.
Qed.

(** The keys of the index after a scan are old keys or scanned files. *)
Lemma select_files_keys (e : env) (files : list string) (k : string) :
  forall idx : gmap string string,
    is_Some (snd (SSHBackup.select_files e files idx) !! k) ->
    is_Some (idx !! k) \/ k ∈ files.
Proof.
  induction files as [| f files IH]; intros idx Hk; [by left |].
  cbn [SSHBackup.select_files] in Hk. cbv zeta in Hk. cbn [snd] in Hk.
  apply IH in Hk as [Hk | Hk]; [| right; by right].
  rewrite should_backup_file_eq in Hk. unfold shouldInclude in Hk.
  assert (is_Some (<[f := md5sum e f]> idx !! k) ->
          is_Some (idx !! k) \/ k ∈ f :: files) as Hins.
  { rewrite lookup_insert_is_Some. intros [<- | [_ ?]]; [right; left | by left]. }
  destruct (decide (md5sum e f = "")); [by left |].
  destruct (idx !! f) as [stored |]; [| by apply Hins].
  destruct (decide (stored = md5sum e f)); [by left | by apply Hins].
Qed.

(** The index pass of a full backup, on any list of files. *)
Lemma build_index_keys (e : env) (files : list string) (k : string) :
  forall idx : gmap string string,
    is_Some
      (fold_left
         (fun idx f =>
            let h := IncrementalBackup.get_remote_file_hash e f in
            if String.eqb h "" then idx else <[f := h]> idx)
         files idx !! k) ->
    is_Some (idx !! k) \/ k ∈ files.
Proof.
  induction files as [| f files IH]; intros idx Hk; [by left |].
  cbn [fold_left] in Hk. apply IH in Hk as [Hk | Hk]; [| right; by right].
  cbv zeta in Hk.
  destruct (String.eqb _ ""); [by left |].
  apply lookup_insert_is_Some in Hk as [<- | [_ ?]]; [right; left | by left].
Qed.

Lemma build_index_nonempty (e : env) (files : list string) :
  forall idx : gmap string string,
    idx <> ∅ \/ Exists (fun f => md5sum e f <> "") files ->
    fold_left
      (fun idx f =>
         let h := IncrementalBackup.get_remote_file_hash e f in
         if String.eqb h "" then idx else <[f := h]> idx)
      files idx <> ∅.
Proof.
  induction files as [| f files IH]; intros idx H.
  - destruct H as [H | H]; [done | by apply Exists_nil in H].
  - cbn [fold_left]. apply IH. cbv zeta.
    unfold IncrementalBackup.get_remote_file_hash.
    destruct (String.eqb_spec (md5sum e f) "") as [Hf | Hf].
    + destruct H as [H | H]; [by left |].
      apply Exists_cons in H as [H | H]; [done | by right].
    + left. apply insert_non_empty.
Qed.

Lemma file_events_transfers (e : env) (rp lp : string) (files : list string) :
  List.filter is_transfer (file_events e rp lp files) = file_events e rp lp files.
Proof.
  unfold file_events.
  induction files as [| f files IH]; [done |].
  cbn [flat_map]. rewrite List.filter_app, IH.
  by destruct (makedirs_ok e _).
Qed.

(** Once the index is not empty, every later path whose files are not in
    it is scanned and copied file by file. *)
Lemma later_paths_incremental (e : env) (rest : list string) :
  forall (s : bool) (client : SSHBackup.t) (w : world),
    SSHBackup.hash_index client <> ∅ ->
    Forall (fun p => makedirs_ok e (local_path_of e p) = true) rest ->
    NoDup (flat_map (find_files e) rest) ->
    (forall k, is_Some (SSHBackup.hash_index client !! k) ->
               k ∉ flat_map (find_files e) rest) ->
    let r := BackupManager.backup_paths e rest s client w in
    fst (fst r) = s
    /\ exists evs,
         trace (snd r) = (trace w ++ evs)%list
         /\ List.filter is_transfer evs = per_file_transfers e rest.
Proof.
  induction rest as [| p rest IH]; intros s client w Hne Hmk Hnd Hfresh.
  - simpl. split; [done |]. exists []. by rewrite app_nil_r.
  - apply Forall_cons in Hmk as [Hmkp Hmk].
    cbn [flat_map] in Hnd, Hfresh.
    apply NoDup_app in Hnd as (Hndp & Hdisj & Hnd).
    assert (IncrementalBackup.is_first_backup (SSHBackup.hash_index client)
            = false) as Hinc.
    { destruct (IncrementalBackup.is_first_backup _) eqn:H; [| done].
      by apply is_first_backup_empty in H. }
    destruct (download_incremental e p (local_path_of e p) client w Hmkp Hinc)
      as (Hok & Hidx & Hnil & Hcopy).
    assert (fst (SSHBackup.select_files e (find_files e p)
                   (SSHBackup.hash_index client)) = find_files e p) as Hsel.
    { apply select_files_fresh; [done |]. intros f Hf.
      destruct (SSHBackup.hash_index client !! f) eqn:Hl; [| done].
      exfalso. apply (Hfresh f); [by eexists |].
      apply elem_of_app. by left. }
    rewrite Hsel in Hnil, Hcopy.
    cbn [BackupManager.backup_paths]. cbv zeta. rewrite Hok.
    set (r1 := SSHBackup.download_directory e p (local_path_of e p) client w)
      in *.
    destruct (IH s (snd (fst r1)) (snd r1)) as (Hs & evs & Ht & Hev).
    + rewrite Hidx. intros Hempty.
      apply Hne. apply map_eq. intros k. rewrite lookup_empty.
      destruct (SSHBackup.hash_index client !! k) eqn:Hl; [| done].
      destruct (select_files_keeps_keys e (find_files e p) k
                  (SSHBackup.hash_index client)) as [v Hv]; [by eexists |].
      by rewrite Hempty, lookup_empty in Hv.
    + exact Hmk.
    + exact Hnd.
    + intros k Hk Hin. rewrite Hidx in Hk.
      apply select_files_keys in Hk as [Hk | Hk].
      * apply (Hfresh k Hk). apply elem_of_app. by right.
      * by apply (Hdisj k).
    + split; [exact Hs |].
      unfold per_file_transfers. cbn [flat_map].
      fold (per_file_transfers e rest).
      assert (exists tail,
                trace (snd r1)
                = (trace w ++ file_events e p (local_path_of e p) (find_files e p)
                     ++ tail)%list
                /\ List.filter is_transfer tail = []) as (tail & Ht1 & Htail).
      { destruct (decide (find_files e p = [])) as [Hfiles | Hfiles].
        - exists []. rewrite (Hnil Hfiles), Hfiles. simpl.
          by rewrite app_nil_r.
        - destruct (Hcopy Hfiles) as (_ & Ht1 & _). eauto. }
      rewrite Ht1, <- !app_assoc in Ht. eexists. split; [exact Ht |].
      rewrite !List.filter_app, file_events_transfers, Htail, Hev. reflexivity.
Qed.

Lemma reserved_hash_index_file (e : env) (w w1 : world) :
  reserved e w = Some w1 -> hash_index_file w1 = hash_index_file w /\ trace w1 = trace w.
Proof.
  unfold reserved.
  destruct (BackupManager.mkdir_exist_ok "current" (server_dir w))
    as [d1 |]; [| done].
  destruct (BackupManager.mkdir_exist_ok (strftime_now e) d1)
    as [d2 |]; [| done].
  destruct (BackupManager.mkdir_exist_ok "hash_index" d2)
    as [d3 |]; [| done].
  by intros [= <-].
Qed.

(** C10. In the first campaign of a server (the index loads empty) whose
    first path is fetched and leaves at least one digest in the shared
    index, and whose paths share no file (the later trees were never
    backed up), only the first path is fetched by a bulk copy: the
    transfers of the campaign are that one bulk copy followed, for every
    later path, by the single-file copies of all the files of its tree,
    and the campaign succeeds. *)
Theorem first_campaign_only_first_path_full (e : env) (p1 : string)
    (rest : list string) (w w1 : world) :
  reserved e w = Some w1 ->
  IncrementalBackup.load_hash_index (hash_index_file w) = ∅ ->
  connect_ok e = true ->
  Forall (fun p => makedirs_ok e (local_path_of e p) = true) (p1 :: rest) ->
  scp_get_tree e p1 = true ->
  Exists (fun f => md5sum e f <> "") (find_files e p1) ->
  NoDup (flat_map (find_files e) (p1 :: rest)) ->
  exists w2,
    BackupManager.backup_server e (p1 :: rest) w
    = Some (true, BackupManager.publish e w2)
    /\ List.filter is_transfer (new_events w1 w2)
       = EScpGetTree p1 (local_path_of e p1) :: per_file_transfers e rest.
Proof.
  intros Hres Hfirst Hconn Hmk Htree Hdig Hnd.
  destruct (reserved_hash_index_file e w w1 Hres) as [Hh _].
  rewrite (backup_server_reserved e (p1 :: rest) w w1 Hres), Hconn, Hh, Hfirst.
  cbn [negb]. cbv zeta.
  apply Forall_cons in Hmk as [Hmk1 Hmk].
  cbn [flat_map] in Hnd. apply NoDup_app in Hnd as (_ & Hdisj & Hnd).
  cbn [BackupManager.backup_paths]. cbv zeta.
  assert (IncrementalBackup.is_first_backup
            (SSHBackup.hash_index (SSHBackup.init ∅)) = true) as Hmode
    by by apply is_first_backup_empty.
  destruct (download_full e p1 (local_path_of e p1) (SSHBackup.init ∅) w1
              Hmk1 Hmode) as (Hok & Hidx & Ht & _).
  rewrite Htree in Hok, Hidx, Ht.
  set (r1 := SSHBackup.download_directory e p1 (local_path_of e p1)
               (SSHBackup.init ∅) w1) in *.
  rewrite Hok.
  destruct (later_paths_incremental e rest true (snd (fst r1)) (snd r1))
    as (Hs & evs & Ht2 & Hev).
  - rewrite Hidx. apply build_index_nonempty. by right.
  - exact Hmk.
  - exact Hnd.
  - intros k Hk Hin. rewrite Hidx in Hk.
    apply build_index_keys in Hk as [Hk | Hk].
    + simpl in Hk. rewrite lookup_empty in Hk. by destruct Hk.
    + by apply (Hdisj k).
  - rewrite Hs. eexists. split; [reflexivity |].
    rewrite Ht, <- app_assoc in Ht2.
    rewrite (new_events_app _ _ _ Ht2).
    cbn [app List.filter is_transfer]. by rewrite Hev.
Qed.

(** A run of C10: first campaign on an empty disk, two trees.  [/srv/www]
    is fetched by a bulk copy, [/srv/db] file by file. *)
Lemma first_campaign_only_first_path_full_witness :
  let e := demo_env true (fun _ => true) (fun _ => true) CopyDone 3 in
  let w1 := set_server_dir
              [dir "current"; dir "20240105_020000"; dir "hash_index"]
              empty_world in
  exists w2,
    BackupManager.backup_server e ["/srv/www"; "/srv/db"] empty_world
    = Some (true, BackupManager.publish e w2)
    /\ List.filter is_transfer (new_events w1 w2)
       = [EScpGetTree "/srv/www" "current/srv/www";
          EScpGetFile "/srv/db/dump" "current/srv/db/srv/db/dump"].
Proof.
  intros e w1.
  apply (first_campaign_only_first_path_full e "/srv/www" ["/srv/db"]
           empty_world w1).
  - reflexivity.
  - reflexivity.
  - reflexivity.
  - repeat constructor.
  - reflexivity.
  - apply Exists_cons_hd. vm_compute. discriminate.
  - vm_compute. apply (bool_decide_unpack _). vm_compute. exact I.
Defined.

(** ** What retention deletes *)

Lemma filter_filter {A} (f g : A -> bool) (l : list A) :
  List.filter f (List.filter g l) = List.filter (fun x => g x && f x) l.
Proof.
  induction l as [| x l IH]; [done |]. simpl.
  destruct (g x); simpl; [destruct (f x) |]; by rewrite IH.
Qed.

Lemma filter_all {A} (f : A -> bool) (l : list A) :
  (forall x, x ∈ l -> f x = true) -> List.filter f l = l.
Proof.
  induction l as [| x l IH]; intros H; [done |]. simpl.
  rewrite (H x) by left. f_equal. apply IH. intros y Hy. apply H. by right.
Qed.

Lemma filter_none {A} (f : A -> bool) (l : list A) :
  (forall x, x ∈ l -> f x = false) -> List.filter f l = [].
Proof.
  induction l as [| x l IH]; intros H; [done |]. simpl.
  rewrite (H x) by left. apply IH. intros y Hy. apply H. by right.
Qed.

Lemma filter_perm {A} (f : A -> bool) (l k : list A) :
  l ≡ₚ k -> List.filter f l ≡ₚ List.filter f k.
Proof.
  induction 1 as [| x l k _ IH | x y l | l k m _ IH1 _ IH2]; simpl.
  - done.
  - destruct (f x); by rewrite IH.
  - destruct (f x), (f y); try done. apply Permutation_swap.
  - by rewrite IH1.
Qed.

Lemma rmtree_server_dir (e : env) (child : string) (w : world) :
  server_dir (snd (BackupManager.rmtree e child w))
  = List.filter
      (fun x => negb (String.eqb (name x) child && rmtree_ok e child))
      (server_dir w).
Proof.
  unfold BackupManager.rmtree.
  destruct (rmtree_ok e child); cbn [snd server_dir]; autorewrite with world.
  - apply List.filter_ext. intros x. by rewrite andb_true_r.
  - symmetry. apply filter_all. intros x _. by rewrite andb_false_r.
Qed.

(** After the deletion loop, an entry is gone exactly when it is named in
    the list and its own removal succeeded. *)
Lemma remove_all_server_dir (e : env) (old : list dirent) :
  forall w : world,
    server_dir (BackupManager.remove_all e old w)
    = List.filter (fun x => negb (removed_by e old x)) (server_dir w).
Proof.
  unfold BackupManager.remove_all, removed_by.
  induction old as [| o old IH]; intros w.
  - simpl. symmetry. by apply filter_all.
  - cbn [fold_left]. rewrite IH, rmtree_server_dir, filter_filter.
    apply List.filter_ext. intros x. cbn [map existsb].
    destruct (String.eqb_spec (name x) (name o)) as [-> | _]; cbn [andb orb negb].
    + by destruct (rmtree_ok e (name o)), (existsb _ _).
    + reflexivity.
Qed.

Lemma slice_from_nonneg {A} (l : list A) (k : Z) :
  0 <= k -> BackupManager.slice_from l k = drop (Z.to_nat k) l.
Proof.
  intros Hk. unfold BackupManager.slice_from.
  by destruct (Z.leb_spec 0 k); [| lia].
Qed.

Lemma backup_dirs_elem (d : list dirent) (x : dirent) :
  x ∈ BackupManager.backup_dirs d
  <-> x ∈ d /\ is_dir x = true /\ name x <> "current".
Proof.
  unfold BackupManager.backup_dirs.
  rewrite !list_elem_of_In, filter_In, andb_true_iff, negb_true_iff.
  by rewrite String.eqb_neq.
Qed.

Lemma NoDup_names_filter (f : dirent -> bool) (d : list dirent) :
  NoDup (map name d) -> NoDup (map name (List.filter f d)).
Proof.
  induction d as [| x d IH]; [done |]. cbn [map List.filter].
  intros [Hx Hd]%NoDup_cons. destruct (f x); [| by apply IH].
  cbn [map]. apply NoDup_cons. split; [| by apply IH].
  intros Hin. apply Hx.
  apply list_elem_of_In, in_map_iff in Hin as (y & Hy & Hin).
  apply list_elem_of_In, in_map_iff. exists y. split; [done |].
  by apply filter_In in Hin as [? _].
Qed.

Lemma existsb_name (x : dirent) (l : list dirent) :
  existsb (String.eqb (name x)) (map name l) = true
  <-> exists y, y ∈ l /\ name y = name x.
Proof.
  rewrite existsb_exists. split.
  - intros (n & Hn & Heq). apply in_map_iff in Hn as (y & <- & Hy).
    apply String.eqb_eq in Heq. exists y. by rewrite list_elem_of_In.
  - intros (y & Hy & Heq). exists (name y). split.
    + apply in_map. by apply list_elem_of_In.
    + by apply String.eqb_eq.
Qed.

(** Retention with a limit [n >= 0] on a server directory (of entries
    with distinct names), over all the directories other than [current],
    the index directory [hash_index] included when it is there: sorted by
    name with the greatest first, they split into the first [min n count],
    which are kept, and the rest, which is to be deleted; every kept name
    is above every name to be deleted.  The removal of each entry to be
    deleted is attempted, in order, whether or not earlier removals
    failed; an entry disappears exactly when it is to be deleted and its
    own removal succeeds, so [current] always stays; and when the
    removals succeed exactly the [min n count] kept directories remain. *)
Lemma retention_keeps_greatest_names (e : env) (w : world) :
  0 <= max_backup_versions e ->
  NoDup (map name (server_dir w)) ->
  let n := Z.to_nat (max_backup_versions e) in
  let dirs := BackupManager.backup_dirs (server_dir w) in
  let kept := take n (BackupManager.sort_desc dirs) in
  let old := old_backups e (server_dir w) in
  let w' := BackupManager.cleanup_old_backups e w in
  (kept ++ old)%list ≡ₚ dirs
  /\ length kept = Nat.min n (length dirs)
  /\ (forall k o, k ∈ kept -> o ∈ old -> desc k o /\ name k <> name o)
  /\ new_events w w' = removals old
  /\ server_dir w'
     = List.filter (fun x => negb (removed_by e old x)) (server_dir w)
  /\ (forall x, x ∈ server_dir w -> name x = "current" -> x ∈ server_dir w')
  /\ (forallb (fun x => rmtree_ok e (name x)) old = true ->
      BackupManager.backup_dirs (server_dir w') ≡ₚ kept
      /\ length (BackupManager.backup_dirs (server_dir w'))
         = Nat.min n (length dirs)).
Proof.
  intros Hn Hnd n dirs kept old w'.
  assert (old = drop n (BackupManager.sort_desc dirs)) as Hold
    by (subst old; unfold old_backups; by rewrite slice_from_nonneg).
  assert ((kept ++ old)%list = BackupManager.sort_desc dirs) as Hsplit
    by (subst kept; rewrite Hold; apply take_drop).
  assert ((kept ++ old)%list ≡ₚ dirs) as Hperm
    by (rewrite Hsplit; apply sort_desc_perm).
  assert (length kept = Nat.min n (length dirs)) as Hlen.
  { subst kept. rewrite length_take. f_equal.
    apply Permutation_length, sort_desc_perm. }
  assert (forall k o, k ∈ kept -> o ∈ old -> desc k o /\ name k <> name o)
    as Hsep.
  { intros k o Hk Ho. split.
    - eapply (StronglySorted_app_1_elem_of desc kept old); [| done | done].
      rewrite Hsplit. apply sort_desc_sorted.
    - assert (NoDup (map name (kept ++ old)%list)) as Hnames.
      { rewrite Hperm. by apply NoDup_names_filter. }
      rewrite map_app in Hnames. apply NoDup_app in Hnames as (_ & Hdisj & _).
      intros Heq. apply (Hdisj (name k)).
      + apply list_elem_of_In, in_map. by apply list_elem_of_In.
      + rewrite Heq. apply list_elem_of_In, in_map. by apply list_elem_of_In. }
  assert (server_dir w'
          = List.filter (fun x => negb (removed_by e old x)) (server_dir w))
    as Hdir by apply remove_all_server_dir.
  assert (forall o, o ∈ old -> o ∈ dirs) as Hsub.
  { intros o Ho. rewrite <- Hperm. apply elem_of_app. by right. }
  split; [exact Hperm |]. split; [exact Hlen |]. split; [exact Hsep |].
  split; [apply cleanup_old_backups_events |]. split; [exact Hdir |]. split.
  - intros x Hx Hcur. rewrite Hdir.
    apply list_elem_of_In, filter_In. split; [by apply list_elem_of_In |].
    apply negb_true_iff. unfold removed_by.
    destruct (existsb _ _) eqn:Hex; [| done]. exfalso.
    apply existsb_name in Hex as (o & Ho & Heq).
    apply Hsub, backup_dirs_elem in Ho as (_ & _ & Hne). congruence.
  - intros Hok.
    assert (BackupManager.backup_dirs (server_dir w') ≡ₚ kept) as Hleft.
    { rewrite Hdir. unfold BackupManager.backup_dirs at 1.
      rewrite filter_filter.
      rewrite (List.filter_ext _
                 (fun x => (is_dir x && negb (String.eqb (name x) "current"))
                           && negb (removed_by e old x)))
        by (intros x; apply andb_comm).
      rewrite <- filter_filter. fold (BackupManager.backup_dirs (server_dir w)).
      fold dirs. rewrite <- (filter_perm _ _ _ Hperm), List.filter_app.
      rewrite (filter_all _ kept), (filter_none _ old), app_nil_r; [done | |].
      - intros o Ho. apply negb_false_iff. unfold removed_by.
        apply andb_true_iff. split.
        + apply existsb_name. by exists o.
        + rewrite forallb_forall in Hok. apply Hok. by apply list_elem_of_In.
      - intros k Hk. apply negb_true_iff. unfold removed_by.
        destruct (existsb _ _) eqn:Hex; [| done]. exfalso.
        apply existsb_name in Hex as (o & Ho & Heq).
        by destruct (Hsep k o Hk Ho) as [_ Hne]. }
    split; [exact Hleft |]. by rewrite (Permutation_length Hleft).
Qed.

(** C5, at a failing input. A server directory as campaigns leave it:
    the mirror, the index directory [hash_index] that
    [IncrementalBackup.__init__] makes in it, and three versions.
    Retention with limit 2 lists [hash_index] with the version
    directories and keeps it, its name being above every timestamp, and
    one version: two of the three versions are removed, where
    [min 2 3 = 2] should remain.  A successful campaign on that disk ends
    the same way, with its own snapshot as the only version left. *)
Theorem retention_counts_the_index_directory :
  let e := demo_env true (fun _ => true) (fun _ => true) CopyDone 2 in
  let w' := BackupManager.cleanup_old_backups e used_world in
  versions (server_dir used_world)
  = ["20240102_020000"; "20240103_020000"; "20240104_020000"]
  /\ new_events used_world w'
     = [ERmtree "20240103_020000"; ERmtree "20240102_020000"]
  /\ map name (server_dir w') = ["current"; "hash_index"; "20240104_020000"]
  /\ versions (server_dir w') = ["20240104_020000"]
  /\ exists w2,
       BackupManager.backup_server e ["/srv/www"; "/srv/db"] used_world
       = Some (true, w2)
       /\ map name (server_dir w2)
          = ["current"; "hash_index"; "20240105_020000"].
Proof.
  repeat split; try (vm_compute; reflexivity).
  eexists. split; vm_compute; reflexivity.
Qed.

(** Remark. The first path of a first campaign leaves the index empty
    when its bulk copy fails; the next path is then fetched by a bulk
    copy as well. *)
Example failed_first_path_keeps_full_mode :
  let e := demo_env true (fun p => negb (String.eqb p "/srv/www"))
             (fun _ => true) CopyDone 3 in
  exists w',
    BackupManager.backup_server e ["/srv/www"; "/srv/db"] empty_world
    = Some (false, w')
    /\ List.filter is_transfer (trace w')
       = [EScpGetTree "/srv/www" "current/srv/www";
          EScpGetTree "/srv/db" "current/srv/db"].
Proof. eexists. split; vm_compute; reflexivity. Qed.

(** * Further properties of the hash index *)

Lemma should_backup_file_lookup (e : env) (f k : string)
    (idx : gmap string string) :
  snd (IncrementalBackup.should_backup_file e f idx) !! k
  = if decide (k = f /\ md5sum e f <> "") then Some (md5sum e f) else idx !! k.
Proof.
  rewrite should_backup_file_eq. unfold shouldInclude.
  destruct (decide (md5sum e f = "")) as [Hd | Hd]; cbn [snd].
  - case_decide as H; [by destruct H | done].
  - assert (<[f := md5sum e f]> idx !! k
            = if decide (k = f /\ md5sum e f <> "")
              then Some (md5sum e f) else idx !! k) as Hins.
    { destruct (decide (k = f)) as [-> | Hne].
      - rewrite lookup_insert_eq. case_decide as H; [done | tauto].
      - rewrite lookup_insert_ne by done. case_decide as H; [tauto | done]. }
    destruct (idx !! f) as [stored |] eqn:Hf; [| exact Hins].
    destruct (decide (stored = md5sum e f)) as [-> | _]; [| exact Hins].
    cbn [snd]. destruct (decide (k = f /\ md5sum e f <> "")) as [[-> _] | _];
      done.
Qed.

Lemma select_files_lookup (e : env) (files : list string) (k : string) :
  forall idx : gmap string string,
    snd (SSHBackup.select_files e files idx) !! k = recorded e files idx k.
Proof.
  unfold recorded.
  induction files as [| f files IH]; intros idx.
  - cbn [SSHBackup.select_files fold_left snd].
    case_decide as H; [| done]. destruct H as [H _].
    by apply elem_of_nil in H.
  - cbn [SSHBackup.select_files]. cbv zeta. cbn [snd].
    rewrite IH, should_backup_file_lookup.
    destruct (decide (k ∈ files /\ md5sum e k <> "")) as [[Hin Hd] | Hno].
    + case_decide as H; [done |]. exfalso. apply H. split; [by right | done].
    + destruct (decide (k = f /\ md5sum e f <> "")) as [[-> Hd] | Hno'].
      * case_decide as H; [done |]. exfalso. apply H. split; [by left | done].
      * case_decide as H; [| done]. exfalso.
        destruct H as [[-> | Hin]%elem_of_cons Hd]; tauto.
Qed.

Lemma build_index_lookup (e : env) (files : list string) (k : string) :
  forall idx : gmap string string,
    fold_left
      (fun idx f =>
         let h := IncrementalBackup.get_remote_file_hash e f in
         if String.eqb h "" then idx else <[f := h]> idx)
      files idx !! k
    = recorded e files idx k.
Proof.
  unfold recorded, IncrementalBackup.get_remote_file_hash.
  induction files as [| f files IH]; intros idx.
  - cbn [SSHBackup.select_files fold_left snd].
    case_decide as H; [| done]. destruct H as [H _].
    by apply elem_of_nil in H.
  - cbn [fold_left]. rewrite IH. cbv zeta.
    destruct (decide (k ∈ files /\ md5sum e k <> "")) as [[Hin Hd] | Hno].
    + case_decide as H; [done |]. exfalso. apply H. split; [by right | done].
    + destruct (String.eqb_spec (md5sum e f) "") as [Hf | Hf].
      * case_decide as H; [| done]. exfalso.
        destruct H as [[-> | Hin]%elem_of_cons Hd]; tauto.
      * destruct (decide (k = f)) as [-> | Hne].
        -- rewrite lookup_insert_eq. case_decide as H; [done |].
           exfalso. apply H. split; [by left | done].
        -- rewrite lookup_insert_ne by done. case_decide as H; [| done].
           exfalso. destruct H as [[-> | Hin]%elem_of_cons Hd]; tauto.
Qed.

(** X1. The index pass that follows a full backup and the selection loop
    of an incremental backup leave the same index: whichever mode a tree
    is backed up in, the index afterwards is the same. *)
Theorem full_index_pass_equals_scan (e : env) (rp : string)
    (idx : gmap string string) :
  SSHBackup.build_hash_index_after_full_backup e rp idx
  = snd (SSHBackup.select_files e (find_files e rp) idx).
Proof.
  apply map_eq. intros k.
  unfold SSHBackup.build_hash_index_after_full_backup,
    IncrementalBackup.get_remote_file_list.
  by rewrite build_index_lookup, select_files_lookup.
Qed.

Lemma select_files_sublist (e : env) (files : list string) :
  forall idx : gmap string string,
    sublist (fst (SSHBackup.select_files e files idx)) files.
Proof.
  induction files as [| f files IH]; intros idx; [constructor |].
  cbn [SSHBackup.select_files]. cbv zeta. cbn [fst].
  destruct (fst (IncrementalBackup.should_backup_file e f idx));
    [apply sublist_skip | apply sublist_cons]; apply IH.
Qed.

Lemma should_backup_file_decision (e : env) (f : string)
    (idx : gmap string string) :
  fst (IncrementalBackup.should_backup_file e f idx) = true
  <-> md5sum e f = "" \/ idx !! f <> Some (md5sum e f).
Proof.
  rewrite should_backup_file_eq. unfold shouldInclude.
  destruct (decide (md5sum e f = "")) as [Hd | Hd]; cbn [fst]; [tauto |].
  destruct (idx !! f) as [stored |]; cbn [fst].
  - destruct (decide (stored = md5sum e f)) as [-> | Hne]; cbn [fst].
    + split; [done | intros [? | ?]; done].
    + split; [| done]. intros _. right. congruence.
  - split; [| done]. intros _. by right.
Qed.

Lemma select_files_elem (e : env) (files : list string) (f : string) :
  forall idx : gmap string string,
    f ∈ fst (SSHBackup.select_files e files idx)
    <-> f ∈ files /\ (md5sum e f = "" \/ idx !! f <> Some (md5sum e f)).
Proof.
  induction files as [| g files IH]; intros idx.
  - simpl. split; [by intros H%elem_of_nil | by intros [H%elem_of_nil _]].
  - cbn [SSHBackup.select_files]. cbv zeta. cbn [fst].
    pose proof (should_backup_file_decision e g idx) as Hg.
    pose proof (should_backup_file_lookup e g f idx) as Hl.
    set (r := IncrementalBackup.should_backup_file e g idx) in *.
    assert (f ∈ fst (SSHBackup.select_files e files (snd r))
            <-> f ∈ files
                /\ (md5sum e f = "" \/ snd r !! f <> Some (md5sum e f)))
      as Htail by apply IH.
    assert (f ∈ (if fst r then g :: fst (SSHBackup.select_files e files (snd r))
                 else fst (SSHBackup.select_files e files (snd r)))
            <-> (f = g /\ fst r = true)
                \/ f ∈ fst (SSHBackup.select_files e files (snd r))) as Hsplit.
    { destruct (fst r); [rewrite elem_of_cons |]; split; try tauto.
      all: intros [[_ ?] | ?]; done. }
    rewrite Hsplit, Htail, elem_of_cons, Hl. clear Hsplit Htail Hl.
    destruct (decide (f = g /\ md5sum e g <> "")) as [[-> Hd] | Hno].
    + split.
      * intros [[_ Hr] | [Hin [He | Hne]]]; [| done | done].
        split; [by left | by apply Hg].
      * intros [_ Hc]. left. split; [done | by apply Hg].
    + split.
      * intros [[-> Hr] | [Hin Hc]]; [split; [by left | by apply Hg] |].
        split; [by right | done].
      * intros [[-> | Hin] Hc]; [left; split; [done | by apply Hg] |].
        right. by split.
Qed.

(** X2. The work list of an incremental backup is a sub-list of the
    remote listing, in the same order, and a file is on it exactly when
    its digest cannot be read or differs from (or is missing in) the
    index: a file whose digest is the recorded one is never transferred,
    a file whose digest cannot be read is transferred in every run. *)
Theorem work_list_is_the_changed_files (e : env) (rp : string)
    (idx : gmap string string) (f : string) :
  sublist (work_list e rp idx) (find_files e rp)
  /\ (f ∈ work_list e rp idx
      <-> f ∈ find_files e rp
          /\ (md5sum e f = "" \/ idx !! f <> Some (md5sum e f))).
Proof.
  unfold work_list. split; [apply select_files_sublist | apply select_files_elem].
Qed.

(** * Further properties of a directory operation *)

(** The result and the index of a directory operation, in one place. *)
Lemma download_directory_result (e : env) (rp lp : string)
    (self : SSHBackup.t) (w : world) :
  let r := SSHBackup.download_directory e rp lp self w in
  let idx := SSHBackup.hash_index self in
  fst (fst r) = completes e rp lp idx
  /\ SSHBackup.hash_index (snd (fst r))
     = (if completes e rp lp idx
        then snd (SSHBackup.select_files e (find_files e rp) idx) else idx).
Proof.
  intros r idx. subst r idx. unfold completes.
  destruct (makedirs_ok e lp) eqn:Hmk; cbn [andb].
  - destruct (IncrementalBackup.is_first_backup (SSHBackup.hash_index self))
      eqn:Hmode.
    + destruct (download_full e rp lp self w Hmk Hmode) as (Hok & Hidx & _).
      rewrite Hok, Hidx. split; [done |].
      destruct (scp_get_tree e rp); [| done].
      apply map_eq. intros k.
      unfold SSHBackup.build_hash_index_after_full_backup,
        IncrementalBackup.get_remote_file_list.
      by rewrite build_index_lookup, select_files_lookup.
    + by destruct (download_incremental e rp lp self w Hmk Hmode)
        as (Hok & Hidx & _).
  - by destruct (download_mkdir_fails e rp lp self w Hmk) as (Hok & Hidx & _).
Qed.

(** X3. A directory operation that runs to the end, in either mode,
    leaves the index with the live digest of every file of the tree whose
    digest could be read and with every other entry as it was; an
    operation that fails leaves the index as it was.  In particular no
    operation ever drops a path from the index. *)
Theorem operation_updates_index (e : env) (rp lp : string)
    (self : SSHBackup.t) (w : world) (k : string) :
  let r := SSHBackup.download_directory e rp lp self w in
  let idx := SSHBackup.hash_index self in
  SSHBackup.hash_index (snd (fst r)) !! k
  = (if completes e rp lp idx
     then if decide (k ∈ find_files e rp /\ md5sum e k <> "")
          then Some (md5sum e k) else idx !! k
     else idx !! k)
  /\ (is_Some (idx !! k) -> is_Some (SSHBackup.hash_index (snd (fst r)) !! k)).
Proof.
  intros r idx.
  destruct (download_directory_result e rp lp self w) as [_ Hidx].
  fold r idx in Hidx. rewrite Hidx.
  destruct (completes e rp lp idx); [| done].
  rewrite select_files_lookup. unfold recorded. split; [done |].
  intros Hk. by case_decide.
Qed.

(** X4. A directory operation fails exactly when the local directory
    cannot be made or, in full mode, the bulk copy raises; an incremental
    operation whose directory can be made succeeds whatever the remote
    listing and the single-file copies do.  A failed operation writes no
    index and leaves the index in memory and the index file as they
    were. *)
Theorem failed_operation_keeps_index (e : env) (rp lp : string)
    (self : SSHBackup.t) (w : world) :
  let r := SSHBackup.download_directory e rp lp self w in
  fst (fst r) = completes e rp lp (SSHBackup.hash_index self)
  /\ (fst (fst r) = false ->
      SSHBackup.hash_index (snd (fst r)) = SSHBackup.hash_index self
      /\ hash_index_file (snd r) = hash_index_file w
      /\ existsb is_index_write (new_events w (snd r)) = false).
Proof.
  intros r.
  destruct (download_directory_result e rp lp self w) as [Hok Hidx].
  fold r in Hok, Hidx. split; [exact Hok |]. intros Hfail.
  rewrite Hok in Hfail. rewrite Hfail in Hidx. split; [exact Hidx |].
  unfold completes in Hfail. subst r.
  destruct (makedirs_ok e lp) eqn:Hmk; cbn [andb] in Hfail.
  - destruct (IncrementalBackup.is_first_backup (SSHBackup.hash_index self))
      eqn:Hmode; [| done].
    destruct (download_full e rp lp self w Hmk Hmode) as (_ & _ & Ht & Hh & _).
    rewrite Hfail in Ht, Hh. by rewrite Hh, (new_events_app _ _ _ Ht).
  - destruct (download_mkdir_fails e rp lp self w Hmk) as (_ & _ & ->).
    split; [done |]. unfold new_events. by rewrite drop_all.
Qed.

(** One operation keeps the index file in step with the index in memory,
    as long as the writes go through. *)
Lemma download_directory_sync (e : env) (rp lp : string)
    (self : SSHBackup.t) (w : world) :
  (forall idx, write_index e idx = WriteOk) ->
  IncrementalBackup.load_hash_index (hash_index_file w)
  = SSHBackup.hash_index self ->
  let r := SSHBackup.download_directory e rp lp self w in
  IncrementalBackup.load_hash_index (hash_index_file (snd r))
  = SSHBackup.hash_index (snd (fst r)).
Proof.
  intros Hw Hsync r. subst r.
  destruct (makedirs_ok e lp) eqn:Hmk.
  - destruct (IncrementalBackup.is_first_backup (SSHBackup.hash_index self))
      eqn:Hmode.
    + destruct (download_full e rp lp self w Hmk Hmode)
        as (_ & Hidx & _ & Hh & _).
      rewrite Hidx, Hh. destruct (scp_get_tree e rp); [| done].
      unfold written. by rewrite Hw.
    + destruct (download_incremental e rp lp self w Hmk Hmode)
        as (_ & Hidx & Hnil & Hcopy).
      rewrite Hidx.
      destruct (fst (SSHBackup.select_files e (find_files e rp)
                       (SSHBackup.hash_index self))) as [| f files] eqn:Hsel.
      * rewrite (Hnil eq_refl), Hsync. symmetry. by apply select_files_nil.
      * destruct Hcopy as (_ & _ & Hh & _); [done |].
        rewrite Hh. unfold written. by rewrite Hw.
  - by destruct (download_mkdir_fails e rp lp self w Hmk) as (_ & -> & ->).
Qed.

Lemma index_file_in_step (e : env) (paths : list string) :
  (forall idx, write_index e idx = WriteOk) ->
  forall (s : bool) (client : SSHBackup.t) (w : world),
    IncrementalBackup.load_hash_index (hash_index_file w)
    = SSHBackup.hash_index client ->
    IncrementalBackup.load_hash_index
      (hash_index_file (snd (BackupManager.backup_paths e paths s client w)))
    = SSHBackup.hash_index
        (snd (fst (BackupManager.backup_paths e paths s client w))).
Proof.
  intros Hw.
  induction paths as [| p paths IH]; intros s client w Hsync; [done |].
  cbn [BackupManager.backup_paths]. cbv zeta.
  apply IH. by apply download_directory_sync.
Qed.

(** X5. Although an incremental operation that selects nothing skips the
    write, the index file never falls behind: if the writes succeed and
    the campaign starts from the index loaded from the file, then after
    the loop over the remote paths, whatever fails in it, the file still
    loads to the index in memory. *)
Theorem index_file_stays_in_step (e : env) (paths : list string)
    (s : bool) (client : SSHBackup.t) (w : world) :
  (forall idx, write_index e idx = WriteOk) ->
  IncrementalBackup.load_hash_index (hash_index_file w)
  = SSHBackup.hash_index client ->
  let r := BackupManager.backup_paths e paths s client w in
  IncrementalBackup.load_hash_index (hash_index_file (snd r))
  = SSHBackup.hash_index (snd (fst r)).
Proof. intros Hw Hsync. by apply index_file_in_step. Qed.

(** A run of X5: the first path fails, the second one is a full backup. *)
Lemma index_file_stays_in_step_witness :
  let e := demo_env true (fun p => negb (String.eqb p "/srv/www"))
             (fun _ => false) CopyDone 3 in
  let r := BackupManager.backup_paths e ["/srv/www"; "/srv/db"] true
             (SSHBackup.init ∅) empty_world in
  IncrementalBackup.load_hash_index (hash_index_file (snd r))
  = SSHBackup.hash_index (snd (fst r)).
Proof.
  intros e r.
  apply (index_file_stays_in_step e ["/srv/www"; "/srv/db"] true
           (SSHBackup.init ∅) empty_world).
  - intros idx. reflexivity.
  - reflexivity.
Defined.

(** * A campaign run twice *)

Lemma elem_of_flat_map {A B} (f : A -> list B) (l : list A) (y : B) :
  y ∈ flat_map f l <-> exists x, x ∈ l /\ y ∈ f x.
Proof.
  rewrite list_elem_of_In, in_flat_map.
  split; intros (x & Hx & Hy); exists x; by rewrite ?list_elem_of_In in *.
Qed.

Lemma download_keeps_live (e : env) (rp lp : string)
    (self : SSHBackup.t) (w : world) (k : string) :
  SSHBackup.hash_index self !! k = Some (md5sum e k) ->
  SSHBackup.hash_index (snd (fst (SSHBackup.download_directory e rp lp self w)))
    !! k = Some (md5sum e k).
Proof.
  intros Hk.
  destruct (download_directory_result e rp lp self w) as [_ ->].
  destruct (completes e rp lp _); [| done]. by apply select_files_keeps_live.
Qed.

Lemma loop_keeps_live (e : env) (paths : list string) (k : string) :
  forall (s : bool) (client : SSHBackup.t) (w : world),
    SSHBackup.hash_index client !! k = Some (md5sum e k) ->
    SSHBackup.hash_index
      (snd (fst (BackupManager.backup_paths e paths s client w))) !! k
    = Some (md5sum e k).
Proof.
  induction paths as [| p paths IH]; intros s client w Hk; [done |].
  cbn [BackupManager.backup_paths]. cbv zeta.
  apply IH. by apply download_keeps_live.
Qed.

(** When every operation of the loop runs to the end and every digest
    can be read, the loop succeeds and every file of every tree is in the
    index under its live digest. *)
Lemma loop_records (e : env) (paths : list string) :
  Forall (fun p => makedirs_ok e (local_path_of e p) = true
                   /\ scp_get_tree e p = true) paths ->
  Forall (fun f => md5sum e f <> "") (flat_map (find_files e) paths) ->
  forall (s : bool) (client : SSHBackup.t) (w : world),
    let r := BackupManager.backup_paths e paths s client w in
    fst (fst r) = s
    /\ forall f, f ∈ flat_map (find_files e) paths ->
         SSHBackup.hash_index (snd (fst r)) !! f = Some (md5sum e f).
Proof.
  induction paths as [| p paths IH]; intros Hok Hdig s client w.
  - split; [done |]. intros f Hf. by apply elem_of_nil in Hf.
  - apply Forall_cons in Hok as [[Hmk Htree] Hok].
    cbn [flat_map] in Hdig. apply Forall_app in Hdig as [Hdp Hdig].
    cbn [BackupManager.backup_paths flat_map]. cbv zeta.
    destruct (download_directory_result e p (local_path_of e p) client w)
      as [Hres Hidx].
    assert (completes e p (local_path_of e p) (SSHBackup.hash_index client)
            = true) as Hc.
    { unfold completes. rewrite Hmk, Htree.
      by destruct (IncrementalBackup.is_first_backup _). }
    rewrite Hc in Hres, Hidx.
    set (r1 := SSHBackup.download_directory e p (local_path_of e p) client w)
      in *.
    destruct (IH Hok Hdig (if fst (fst r1) then s else false) (snd (fst r1))
                (snd r1)) as [Hs Hrec].
    split; [by rewrite Hs, Hres |].
    intros f [Hf | Hf]%elem_of_app; [| by apply Hrec].
    apply loop_keeps_live. rewrite Hidx, select_files_lookup. unfold recorded.
    case_decide as H; [done |]. exfalso. apply H. split; [done |].
    rewrite Forall_forall in Hdp. by apply Hdp.
Qed.

(** A loop over trees whose files are all in the index under their live
    digest does nothing at all. *)
Lemma loop_known (e : env) (paths : list string) :
  Forall (fun p => makedirs_ok e (local_path_of e p) = true) paths ->
  Forall (fun f => md5sum e f <> "") (flat_map (find_files e) paths) ->
  forall (s : bool) (client : SSHBackup.t) (w : world),
    SSHBackup.hash_index client <> ∅ ->
    (forall f, f ∈ flat_map (find_files e) paths ->
       SSHBackup.hash_index client !! f = Some (md5sum e f)) ->
    let r := BackupManager.backup_paths e paths s client w in
    fst (fst r) = s /\ snd r = w
    /\ SSHBackup.hash_index (snd (fst r)) = SSHBackup.hash_index client.
Proof.
  induction paths as [| p paths IH]; intros Hmk Hdig s client w Hne Hknown;
    [done |].
  apply Forall_cons in Hmk as [Hmkp Hmk].
  cbn [flat_map] in Hdig, Hknown. apply Forall_app in Hdig as [Hdp Hdig].
  cbn [BackupManager.backup_paths]. cbv zeta.
  assert (IncrementalBackup.is_first_backup (SSHBackup.hash_index client)
          = false) as Hinc.
  { destruct (IncrementalBackup.is_first_backup _) eqn:H; [| done].
    by apply is_first_backup_empty in H. }
  destruct (download_incremental e p (local_path_of e p) client w Hmkp Hinc)
    as (Hok & Hidx & Hnil & _).
  assert (SSHBackup.select_files e (find_files e p) (SSHBackup.hash_index client)
          = ([], SSHBackup.hash_index client)) as Hsel.
  { apply select_files_known; [exact Hdp |].
    apply Forall_forall. intros f Hf. apply Hknown, elem_of_app. by left. }
  rewrite Hsel in Hidx, Hnil. cbn [fst snd] in Hidx, Hnil.
  set (r1 := SSHBackup.download_directory e p (local_path_of e p) client w)
    in *.
  rewrite Hok, (Hnil eq_refl).
  destruct (IH Hmk Hdig s (snd (fst r1)) w) as (Hs & Hw & Hi).
  - by rewrite Hidx.
  - intros f Hf. rewrite Hidx. apply Hknown, elem_of_app. by right.
  - by rewrite Hs, Hw, Hi, Hidx.
Qed.

(** X6. Run the loop of a campaign over remote trees that hold at least
    one file, with every directory operation able to run and every digest
    and index write succeeding; then run it again from the index file it
    left, against the same remote state.  Both runs succeed, and the
    second one changes nothing: no transfer, no write, the same index. *)
Theorem second_campaign_does_nothing (e : env) (paths : list string)
    (client : SSHBackup.t) (w : world) :
  (forall idx, write_index e idx = WriteOk) ->
  IncrementalBackup.load_hash_index (hash_index_file w)
  = SSHBackup.hash_index client ->
  Forall (fun p => makedirs_ok e (local_path_of e p) = true
                   /\ scp_get_tree e p = true) paths ->
  Forall (fun f => md5sum e f <> "") (flat_map (find_files e) paths) ->
  flat_map (find_files e) paths <> [] ->
  let r1 := BackupManager.backup_paths e paths true client w in
  let again :=
    SSHBackup.init (IncrementalBackup.load_hash_index (hash_index_file (snd r1))) in
  let r2 := BackupManager.backup_paths e paths true again (snd r1) in
  fst (fst r1) = true
  /\ fst (fst r2) = true
  /\ snd r2 = snd r1
  /\ SSHBackup.hash_index (snd (fst r2)) = SSHBackup.hash_index (snd (fst r1)).
Proof.
  intros Hw Hsync Hok Hdig Hfiles r1 again r2.
  destruct (loop_records e paths Hok Hdig true client w) as [Hs1 Hrec].
  fold r1 in Hs1, Hrec.
  assert (SSHBackup.hash_index again = SSHBackup.hash_index (snd (fst r1)))
    as Hagain.
  { subst again. cbn [SSHBackup.hash_index SSHBackup.init].
    by apply index_file_in_step. }
  destruct (loop_known e paths) with (s := true) (client := again)
    (w := snd r1) as (Hs2 & Hw2 & Hi2).
  - eapply Forall_impl; [exact Hok |]. by intros p [? _].
  - exact Hdig.
  - rewrite Hagain. intros Hempty.
    destruct (flat_map (find_files e) paths) as [| f fs] eqn:Hfs; [done |].
    specialize (Hrec f (list_elem_of_here _ _)).
    by rewrite Hempty, lookup_empty in Hrec.
  - intros f Hf. rewrite Hagain. by apply Hrec.
  - fold r2 in Hs2, Hw2, Hi2. by rewrite Hi2, Hagain.
Qed.

(** A run of X6 on an empty disk, two trees. *)
Lemma second_campaign_does_nothing_witness :
  let e := demo_env true (fun _ => true) (fun _ => false) CopyDone 3 in
  let r1 := BackupManager.backup_paths e ["/srv/www"; "/srv/db"] true
              (SSHBackup.init ∅) empty_world in
  let again :=
    SSHBackup.init (IncrementalBackup.load_hash_index (hash_index_file (snd r1))) in
  let r2 := BackupManager.backup_paths e ["/srv/www"; "/srv/db"] true again
              (snd r1) in
  snd r2 = snd r1.
Proof.
  intros e r1 again r2.
  refine (proj1 (proj2 (proj2
    (second_campaign_does_nothing e ["/srv/www"; "/srv/db"]
       (SSHBackup.init ∅) empty_world _ eq_refl _ _ _)))).
  - intros idx. reflexivity.
  - repeat constructor.
  - repeat constructor; vm_compute; discriminate.
  - vm_compute. discriminate.
Defined.

(** X7. The digest of a selected file is recorded when the file is
    selected, before its copy is tried.  So a file of the work list whose
    digest could be read is not selected again by the next scan of the
    same remote state, whether its copy succeeded or failed: a failed
    copy is not retried. *)
Theorem failed_copy_is_not_retried (e : env) (rp lp : string)
    (self : SSHBackup.t) (w : world) (f : string) :
  makedirs_ok e lp = true ->
  IncrementalBackup.is_first_backup (SSHBackup.hash_index self) = false ->
  f ∈ work_list e rp (SSHBackup.hash_index self) ->
  md5sum e f <> "" ->
  let r := SSHBackup.download_directory e rp lp self w in
  fst (fst r) = true
  /\ SSHBackup.hash_index (snd (fst r)) !! f = Some (md5sum e f)
  /\ f ∉ work_list e rp (SSHBackup.hash_index (snd (fst r))).
Proof.
  intros Hmk Hinc Hf Hd r.
  destruct (download_incremental e rp lp self w Hmk Hinc) as (Hok & Hidx & _).
  fold r in Hok, Hidx.
  assert (SSHBackup.hash_index (snd (fst r)) !! f = Some (md5sum e f)) as Hrec.
  { rewrite Hidx, select_files_lookup. unfold recorded.
    case_decide as H; [done |]. exfalso. apply H. split; [| done].
    unfold work_list in Hf. by apply select_files_elem in Hf as [? _]. }
  split; [done |]. split; [done |].
  unfold work_list. rewrite select_files_elem. intros [_ [? | ?]]; done.
Qed.

(** A run of X7 in which every single-file copy fails. *)
Lemma failed_copy_is_not_retried_witness :
  let e := demo_env true (fun _ => true) (fun _ => false) CopyDone 3 in
  let r := SSHBackup.download_directory e "/srv/www" "current/srv/www"
             (SSHBackup.init stale_index) empty_world in
  scp_get_file e "/srv/www/a" = false
  /\ "/srv/www/a" ∉ work_list e "/srv/www" (SSHBackup.hash_index (snd (fst r))).
Proof.
  intros e r. split; [reflexivity |].
  refine (proj2 (proj2
    (failed_copy_is_not_retried e "/srv/www" "current/srv/www"
       (SSHBackup.init stale_index) empty_world "/srv/www/a" eq_refl _ _ _))).
  - vm_compute. reflexivity.
  - vm_compute. apply list_elem_of_here.
  - vm_compute. discriminate.
Defined.

(** * The progress of an incremental operation *)

Lemma update_total (pb : ProgressBar.t) cur file bytes now :
  ProgressBar.total (fst (ProgressBar.update pb cur file bytes now))
  = ProgressBar.total pb.
Proof.
  unfold ProgressBar.update. by destruct (ProgressBar.Qltb _ _).
Qed.

(** What the copy loop does to the bar: one step per file, the bytes of
    the files whose copy went through. *)
Lemma copy_files_bar (e : env) (rp lp : string) (files : list string) :
  forall (c : Z) (pb : ProgressBar.t) (w : world),
    let r := SSHBackup.copy_files e rp lp files c pb w in
    ProgressBar.total (snd (fst r)) = ProgressBar.total pb
    /\ ProgressBar.transferred_size (snd (fst r))
       = ProgressBar.transferred_size pb + copied_bytes e rp lp files
    /\ (files <> [] ->
        ProgressBar.current (snd (fst r)) = c + Z.of_nat (length files)).
Proof.
  induction files as [| f files IH]; intros c pb w.
  - unfold copied_bytes. simpl. split; [done |]. split; [lia | done].
  - cbn [SSHBackup.copy_files]. cbv zeta.
    match goal with
    | |- context [SSHBackup.copy_files e rp lp files ?c' ?pb' ?w'] =>
        destruct (IH c' pb' w') as (Ht & Hb & Hc);
        set (pb1 := pb') in *; set (w1 := w') in *
    end.
    assert (ProgressBar.total pb1 = ProgressBar.total pb
            /\ ProgressBar.current pb1 = c + 1
            /\ ProgressBar.transferred_size pb1
               = ProgressBar.transferred_size pb
                 + (if copied_ok e rp lp f then Z.max 0 (stat_size e f) else 0))
      as (Ht1 & Hc1 & Hb1).
    { subst pb1. unfold copied_ok, local_file_path.
      destruct (makedirs_ok e (dirname e (join e lp (relpath e f rp))));
        [destruct (scp_get_file e f) |]; cbn [fst snd andb];
        rewrite update_total;
        match goal with
        | |- context [ProgressBar.update ?p ?a ?b ?s ?n] =>
            destruct (update_counters p a b s n) as [-> ->]
        end; repeat split; lia. }
    rewrite Ht, Hb, Ht1, Hb1. split; [done |]. split.
    + unfold copied_bytes. cbn [map fold_right]. lia.
    + intros _. destruct files as [| g files'].
      * simpl. simpl in Hc1. rewrite Hc1. lia.
      * rewrite Hc by done. cbn [length]. lia.
Qed.

(** X8. After an incremental operation with a non-empty work list the
    progress bar stands at the full count, files whose copy failed
    included, while its byte counter holds the sizes of the files whose
    copy went through only (a size that is not positive adds nothing). *)
Theorem progress_counts_failures_but_not_their_bytes (e : env) (rp lp : string)
    (self : SSHBackup.t) (w : world) :
  makedirs_ok e lp = true ->
  IncrementalBackup.is_first_backup (SSHBackup.hash_index self) = false ->
  work_list e rp (SSHBackup.hash_index self) <> [] ->
  let files := work_list e rp (SSHBackup.hash_index self) in
  let r := SSHBackup.download_directory e rp lp self w in
  exists pb,
    SSHBackup.progress_bar (snd (fst r)) = Some pb
    /\ ProgressBar.total pb = Z.of_nat (length files)
    /\ ProgressBar.current pb = ProgressBar.total pb
    /\ ProgressBar.transferred_size pb = copied_bytes e rp lp files.
Proof.
  intros Hmk Hinc Hne files r. subst r files.
  unfold SSHBackup.download_directory, work_list in *.
  rewrite Hmk, Hinc. cbn [negb]. cbv zeta.
  unfold IncrementalBackup.get_remote_file_list.
  set (sel := SSHBackup.select_files e (find_files e rp)
                (SSHBackup.hash_index self)) in *.
  replace (Z.of_nat (length (fst sel)) =? 0) with false
    by (symmetry; apply Z.eqb_neq; destruct (fst sel); simpl in *; [done | lia]).
  cbn [fst snd SSHBackup.progress_bar].
  match goal with
  | |- context [SSHBackup.copy_files e rp lp ?fs ?c ?pb ?w'] =>
      destruct (copy_files_bar e rp lp fs c pb w') as (Ht & Hb & Hc)
  end.
  eexists. split; [reflexivity |].
  rewrite Ht, Hb, (Hc Hne). cbn [ProgressBar.total ProgressBar.init
    ProgressBar.transferred_size]. repeat split; lia.
Qed.

(** A run of X8: two files of 1024 bytes, the copy of one fails. *)
Lemma progress_counts_failures_but_not_their_bytes_witness :
  let e := demo_env true (fun _ => true)
             (fun f => String.eqb f "/srv/www/a") CopyDone 3 in
  let r := SSHBackup.download_directory e "/srv/www" "current/srv/www"
             (SSHBackup.init stale_index) empty_world in
  exists pb,
    SSHBackup.progress_bar (snd (fst r)) = Some pb
    /\ ProgressBar.total pb = 2
    /\ ProgressBar.current pb = ProgressBar.total pb
    /\ ProgressBar.transferred_size pb = 1024.
Proof.
  intros e r.
  apply (progress_counts_failures_but_not_their_bytes e "/srv/www"
           "current/srv/www" (SSHBackup.init stale_index) empty_world).
  - reflexivity.
  - vm_compute. reflexivity.
  - vm_compute. discriminate.
Defined.

(** * The display of the progress bar *)

(** X9. With a positive total and a count between 0 and the total, the
    bar fills between 0 and 30 of its 30 cells, and all 30 exactly when
    the count has reached the total; with a total that is not positive
    nothing is filled (and nothing is divided). *)
Theorem bar_stays_within_its_cells (pb : ProgressBar.t) (current : Z) :
  0 <= current <= ProgressBar.total pb ->
  let filled := ProgressBar.r_filled (ProgressBar.render pb current) in
  0 <= filled <= 30
  /\ (0 < ProgressBar.total pb ->
      (filled = 30 <-> current = ProgressBar.total pb))
  /\ (ProgressBar.total pb <= 0 -> filled = 0).
Proof.
  intros Hc filled. subst filled. unfold ProgressBar.render.
  cbn [ProgressBar.r_filled].
  destruct (Z.ltb_spec 0 (ProgressBar.total pb)) as [Hpos | Hneg].
  - assert (0 <= 30 * current / ProgressBar.total pb)
      by (apply Z.div_pos; lia).
    assert (30 * current / ProgressBar.total pb <= 30)
      by (apply Z.div_le_upper_bound; lia).
    split; [lia |]. split; [| lia]. intros _. split.
    + intros Heq.
      pose proof (Z.mul_div_le (30 * current) (ProgressBar.total pb) Hpos) as Hm.
      rewrite Heq in Hm. lia.
    + intros ->. apply Z.div_mul. lia.
  - split; [lia |]. split; [lia | done].
Qed.

(** A run of X9: 3 of 7. *)
Lemma bar_stays_within_its_cells_witness :
  let pb := ProgressBar.init 7 "p" false 0%Q in
  0 <= ProgressBar.r_filled (ProgressBar.render pb 3) <= 30.
Proof.
  intros pb.
  refine (proj1 (bar_stays_within_its_cells pb 3 _)).
  vm_compute. split; discriminate.
Defined.










(** A name of 60 characters in 180 bytes is cut to its last 47
    characters; a name of 30 characters in 86 bytes is shown as it is. *)
Example shown_file_name_counts_characters :
  let wide := "备份" in
  let repeat_name := fix rep (n : nat) (s : string) : string :=
    match n with O => "" | S n' => String.append s (rep n' s) end in
  let long := repeat_name 30%nat wide in
  let short := String.append (repeat_name 7%nat (String.append wide wide))
                 "ab" in
  String.length long = 180%nat
  /\ ProgressBar.len long = 60%nat
  /\ ProgressBar.display_file long
     = String.append "..." (substring 39 141 long)
  /\ String.length short = 86%nat
  /\ ProgressBar.len short = 30%nat
  /\ ProgressBar.display_file short = short.
Proof. vm_compute. repeat split. Qed.

(** * The rate limit of the rendering *)

Lemma update_draws (pb : ProgressBar.t) cur file bytes (now : Q) :
  let r := ProgressBar.update pb cur file bytes now in
  match snd r with
  | Some _ => apart (ProgressBar.last_update pb) now
              /\ ProgressBar.last_update (fst r) = now
  | None => ProgressBar.last_update (fst r) = ProgressBar.last_update pb
  end.
Proof.
  unfold ProgressBar.update, ProgressBar.Qltb. cbn [ProgressBar.last_update].
  destruct (Qle_bool (1 # 10) (now - ProgressBar.last_update pb)) eqn:Hle;
    cbn [negb fst snd ProgressBar.last_update]; [| done].
  split; [| done]. apply Qle_bool_iff in Hle. unfold apart. lra.
Qed.

(** X11. Whatever calls are made and whatever the clock reads, two
    consecutive drawings of the bar are at least a tenth of a second
    apart by the clock, and the first one at least as much after the last
    drawing before the calls. *)
Theorem drawings_are_a_tenth_apart (calls : list ProgressBar.call) :
  forall pb : ProgressBar.t,
    Sorted apart (ProgressBar.last_update pb :: render_times pb calls).
Proof.
  induction calls as [| c calls IH]; intros pb.
  - repeat constructor.
  - cbn [render_times]. cbv zeta.
    pose proof (update_draws pb (ProgressBar.c_current c) (ProgressBar.c_file c)
                  (ProgressBar.c_bytes c) (ProgressBar.c_now c)) as Hd.
    cbv zeta in Hd.
    set (r := ProgressBar.update pb (ProgressBar.c_current c)
                (ProgressBar.c_file c) (ProgressBar.c_bytes c)
                (ProgressBar.c_now c)) in *.
    specialize (IH (fst r)).
    destruct (snd r) as [drawn |].
    + destruct Hd as [Hgap Hlast]. rewrite Hlast in IH.
      constructor; [exact IH | by constructor].
    + by rewrite Hd in IH.
Qed.

(** * Further properties of retention *)

(** The split of the sorted directories into kept and old ones. *)
Lemma retention_split (e : env) (d : list dirent) :
  0 <= max_backup_versions e ->
  NoDup (map name d) ->
  (kept_backups e d ++ old_backups e d)%list ≡ₚ BackupManager.backup_dirs d
  /\ length (kept_backups e d)
     = Nat.min (Z.to_nat (max_backup_versions e))
         (length (BackupManager.backup_dirs d))
  /\ (forall k o, k ∈ kept_backups e d -> o ∈ old_backups e d ->
        desc k o /\ name k <> name o).
Proof.
  intros Hn Hnd. unfold kept_backups, old_backups.
  rewrite slice_from_nonneg by done.
  set (n := Z.to_nat (max_backup_versions e)).
  set (sorted := BackupManager.sort_desc (BackupManager.backup_dirs d)).
  assert ((take n sorted ++ drop n sorted)%list ≡ₚ BackupManager.backup_dirs d)
    as Hperm by (rewrite take_drop; apply sort_desc_perm).
  split; [exact Hperm |]. split.
  - rewrite length_take. f_equal. apply Permutation_length, sort_desc_perm.
  - intros k o Hk Ho. split.
    + eapply (StronglySorted_app_1_elem_of desc (take n sorted) (drop n sorted));
        [| done | done].
      rewrite take_drop. apply sort_desc_sorted.
    + assert (NoDup (map name (take n sorted ++ drop n sorted)%list)) as Hnames.
      { rewrite Hperm. by apply NoDup_names_filter. }
      rewrite map_app in Hnames. apply NoDup_app in Hnames as (_ & Hdisj & _).
      intros Heq. apply (Hdisj (name k)).
      * apply list_elem_of_In, in_map. by apply list_elem_of_In.
      * rewrite Heq. apply list_elem_of_In, in_map. by apply list_elem_of_In.
Qed.

Lemma backup_dirs_filter (f : dirent -> bool) (d : list dirent) :
  BackupManager.backup_dirs (List.filter f d)
  = List.filter f (BackupManager.backup_dirs d).
Proof.
  unfold BackupManager.backup_dirs. rewrite !filter_filter.
  apply List.filter_ext. intros x. apply andb_comm.
Qed.

(** When the removals succeed, the directories left are the kept ones. *)
Lemma cleanup_leaves_kept (e : env) (w : world) :
  0 <= max_backup_versions e ->
  NoDup (map name (server_dir w)) ->
  removals_succeed e (server_dir w) = true ->
  BackupManager.backup_dirs (server_dir (BackupManager.cleanup_old_backups e w))
  ≡ₚ kept_backups e (server_dir w).
Proof.
  intros Hn Hnd Hok.
  destruct (retention_split e (server_dir w) Hn Hnd) as (Hperm & _ & Hsep).
  unfold BackupManager.cleanup_old_backups.
  fold (old_backups e (server_dir w)).
  rewrite remove_all_server_dir, backup_dirs_filter.
  rewrite <- (filter_perm _ _ _ Hperm), List.filter_app.
  rewrite (filter_all _ (kept_backups e (server_dir w))),
    (filter_none _ (old_backups e (server_dir w))), app_nil_r; [done | |].
  - intros o Ho. apply negb_false_iff. unfold removed_by.
    apply andb_true_iff. split.
    + apply existsb_name. by exists o.
    + unfold removals_succeed in Hok. rewrite forallb_forall in Hok.
      apply Hok. by apply list_elem_of_In.
  - intros k Hk. apply negb_true_iff. unfold removed_by.
    destruct (existsb _ _) eqn:Hex; [| done]. exfalso.
    apply existsb_name in Hex as (o & Ho & Heq).
    by destruct (Hsep k o Hk Ho) as [_ Hne].
Qed.

Lemma old_backups_nil (e : env) (d : list dirent) :
  0 <= max_backup_versions e ->
  (length (BackupManager.backup_dirs d) <= Z.to_nat (max_backup_versions e))%nat ->
  old_backups e d = [].
Proof.
  intros Hn Hlen. unfold old_backups. rewrite slice_from_nonneg by done.
  apply drop_ge.
  by rewrite (Permutation_length (sort_desc_perm (BackupManager.backup_dirs d))).
Qed.

(** X12. Retention is idempotent: once it has run with its removals
    succeeding, running it again (same limit, nothing added) removes
    nothing and leaves the world as it is; and on a directory that holds
    no more than the limit it removes nothing in the first place. *)
Theorem retention_is_idempotent (e : env) (w : world) :
  0 <= max_backup_versions e ->
  NoDup (map name (server_dir w)) ->
  removals_succeed e (server_dir w) = true ->
  let w' := BackupManager.cleanup_old_backups e w in
  BackupManager.cleanup_old_backups e w' = w'
  /\ ((length (BackupManager.backup_dirs (server_dir w))
       <= Z.to_nat (max_backup_versions e))%nat -> w' = w).
Proof.
  intros Hn Hnd Hok w'.
  assert (forall v : world,
            (length (BackupManager.backup_dirs (server_dir v))
             <= Z.to_nat (max_backup_versions e))%nat ->
            BackupManager.cleanup_old_backups e v = v) as Hsmall.
  { intros v Hlen. unfold BackupManager.cleanup_old_backups.
    fold (old_backups e (server_dir v)). by rewrite old_backups_nil. }
  split; [| apply Hsmall]. apply Hsmall. subst w'.
  rewrite (Permutation_length (cleanup_leaves_kept e w Hn Hnd Hok)).
  unfold kept_backups. rewrite length_take. lia.
Qed.

(** A run of X12 with limit 2 on four versions. *)
Lemma retention_is_idempotent_witness :
  let e := demo_env true (fun _ => true) (fun _ => true) CopyDone 2 in
  let w' := BackupManager.cleanup_old_backups e versions_world in
  BackupManager.cleanup_old_backups e w' = w'.
Proof.
  intros e w'.
  refine (proj1 (retention_is_idempotent e versions_world _ _ _)).
  - vm_compute. discriminate.
  - vm_compute. apply (bool_decide_unpack _). vm_compute. exact I.
  - vm_compute. reflexivity.
Defined.

(** ** The index directory among the versions *)

Lemma ltb_not_leb (a b : string) :
  String.ltb a b = true -> String.leb b a = true -> False.
Proof.
  unfold String.ltb, String.leb. rewrite (String.compare_antisym a b).
  by destruct (String.compare b a).
Qed.

Lemma versions_backup_dirs (d : list dirent) :
  versions d
  = map name
      (List.filter (fun x => negb (String.eqb (name x) "hash_index"))
         (BackupManager.backup_dirs d)).
Proof.
  unfold versions, BackupManager.backup_dirs. by rewrite filter_filter.
Qed.

Lemma index_dir_in_backup_dirs (d : list dirent) :
  dir "hash_index" ∈ d -> dir "hash_index" ∈ BackupManager.backup_dirs d.
Proof. intros Hin. by apply backup_dirs_elem. Qed.

(** With a limit of at least 1 the index directory, whose name is above
    all others, is among the kept directories. *)
Lemma index_dir_is_kept (e : env) (d : list dirent) :
  1 <= max_backup_versions e ->
  NoDup (map name d) ->
  dir "hash_index" ∈ d ->
  names_below_index d ->
  dir "hash_index" ∈ kept_backups e d.
Proof.
  intros Hn Hnd Hin Hbelow.
  destruct (retention_split e d) as (Hperm & Hlen & Hsep); [lia | done |].
  apply index_dir_in_backup_dirs in Hin as Hdirs.
  rewrite <- Hperm in Hdirs. apply elem_of_app in Hdirs as [Hk | Ho]; [done |].
  exfalso.
  assert (exists k, k ∈ kept_backups e d) as [k Hk].
  { destruct (kept_backups e d) as [| k ks] eqn:Hkept; [| exists k; by left].
    exfalso. simpl in Hlen, Hperm.
    assert (length (old_backups e d)
            = length (BackupManager.backup_dirs d)) as Hall
      by by rewrite Hperm.
    assert (0 < length (old_backups e d))%nat
      by (destruct (old_backups e d); [by apply elem_of_nil in Ho | simpl; lia]).
    lia. }
  destruct (Hsep k _ Hk Ho) as [Hdesc Hne].
  apply (ltb_not_leb (name k) "hash_index"); [| exact Hdesc].
  apply Hbelow; [| exact Hne]. rewrite <- Hperm. apply elem_of_app. by left.
Qed.

Lemma length_filter_out_name (l : list dirent) (x : dirent) :
  NoDup (map name l) -> x ∈ l ->
  length (List.filter (fun y => negb (String.eqb (name y) (name x))) l)
  = (length l - 1)%nat.
Proof.
  induction l as [| y l IH]; intros Hnd Hx; [by apply elem_of_nil in Hx |].
  cbn [map] in Hnd. apply NoDup_cons in Hnd as [Hy Hnd].
  cbn [List.filter length].
  destruct (String.eqb_spec (name y) (name x)) as [Heq | Hne]; cbn [negb].
  - rewrite filter_all; [lia |].
    intros z Hz. apply negb_true_iff, String.eqb_neq. intros Hzx.
    apply Hy. rewrite Heq, <- Hzx.
    apply list_elem_of_In, in_map. by apply list_elem_of_In.
  - apply elem_of_cons in Hx as [-> | Hx]; [done |].
    cbn [length]. rewrite IH by done.
    destruct l; [by apply elem_of_nil in Hx | simpl; lia].
Qed.

Lemma rmtree_hash_index_file (e : env) (child : string) (w : world) :
  hash_index_file (snd (BackupManager.rmtree e child w))
  = if String.eqb child "hash_index" && rmtree_ok e child
    then FileAbsent else hash_index_file w.
Proof.
  unfold BackupManager.rmtree.
  destruct (rmtree_ok e child); cbn [snd hash_index_file];
    autorewrite with world; by destruct (String.eqb child "hash_index").
Qed.

(** The index file after the deletion loop: gone exactly when the index
    directory is in the list and its removal succeeds. *)
Lemma remove_all_hash_index_file (e : env) (old : list dirent) :
  forall w : world,
    hash_index_file (BackupManager.remove_all e old w)
    = if existsb (fun x => String.eqb (name x) "hash_index"
                           && rmtree_ok e (name x)) old
      then FileAbsent else hash_index_file w.
Proof.
  unfold BackupManager.remove_all.
  induction old as [| o old IH]; intros w; [done |].
  cbn [fold_left existsb]. rewrite IH, rmtree_hash_index_file.
  destruct (String.eqb (name o) "hash_index" && rmtree_ok e (name o));
    cbn [orb]; by destruct (existsb _ old).
Qed.

(** X13. The index directory [hash_index] lies in the server directory
    and retention counts it: with a limit [n >= 1], names of versions
    below [hash_index] (as timestamps are) and removals that succeed, the
    index directory and its file are kept and [min (n - 1) count] of the
    [count] versions remain, one fewer than the limit; with a limit of 1
    no version remains. *)
Theorem index_directory_takes_a_slot (e : env) (w : world) :
  1 <= max_backup_versions e ->
  NoDup (map name (server_dir w)) ->
  dir "hash_index" ∈ server_dir w ->
  names_below_index (server_dir w) ->
  removals_succeed e (server_dir w) = true ->
  let w' := BackupManager.cleanup_old_backups e w in
  dir "hash_index" ∈ server_dir w'
  /\ hash_index_file w' = hash_index_file w
  /\ length (versions (server_dir w'))
     = Nat.min (Z.to_nat (max_backup_versions e) - 1)
         (length (versions (server_dir w))).
Proof.
  intros Hn Hnd Hin Hbelow Hok w'.
  destruct (retention_split e (server_dir w)) as (Hperm & Hlen & Hsep);
    [lia | done |].
  pose proof (index_dir_is_kept e (server_dir w) Hn Hnd Hin Hbelow) as Hkept.
  assert (BackupManager.backup_dirs (server_dir w')
          ≡ₚ kept_backups e (server_dir w)) as Hleft
    by (apply cleanup_leaves_kept; [lia | done | done]).
  assert (forall o, o ∈ old_backups e (server_dir w) ->
                    name o <> "hash_index") as Hold.
  { intros o Ho Heq. by destruct (Hsep _ o Hkept Ho) as [_ Hne]. }
  split; [| split].
  - assert (dir "hash_index" ∈ BackupManager.backup_dirs (server_dir w')) as H
      by by rewrite Hleft.
    by apply backup_dirs_elem in H as [? _].
  - subst w'. unfold BackupManager.cleanup_old_backups.
    fold (old_backups e (server_dir w)).
    rewrite remove_all_hash_index_file.
    destruct (existsb _ _) eqn:Hex; [| done]. exfalso.
    apply existsb_exists in Hex as (o & Ho & Heq).
    apply andb_true_iff in Heq as [Heq _]. apply String.eqb_eq in Heq.
    apply (Hold o); [by apply list_elem_of_In | done].
  - rewrite !versions_backup_dirs, !length_map.
    rewrite (Permutation_length (filter_perm _ _ _ Hleft)).
    change "hash_index" with (name (dir "hash_index")).
    rewrite !length_filter_out_name.
    + rewrite Hlen. lia.
    + by apply NoDup_names_filter.
    + by apply index_dir_in_backup_dirs.
    + rewrite <- Hleft. apply NoDup_names_filter.
      subst w'. unfold BackupManager.cleanup_old_backups.
      rewrite remove_all_server_dir. by apply NoDup_names_filter.
    + exact Hkept.
Qed.

(** A run of X13 with limit 1: three versions before, none after. *)
Lemma index_directory_takes_a_slot_witness :
  let e := demo_env true (fun _ => true) (fun _ => true) CopyDone 1 in
  let w' := BackupManager.cleanup_old_backups e used_world in
  length (versions (server_dir used_world)) = 3%nat
  /\ length (versions (server_dir w')) = 0%nat.
Proof.
  intros e w'. split; [reflexivity |].
  refine (proj2 (proj2 (index_directory_takes_a_slot e used_world _ _ _ _ _))).
  - vm_compute. discriminate.
  - vm_compute. apply (bool_decide_unpack _). vm_compute. exact I.
  - vm_compute. apply list_elem_of_further, list_elem_of_here.
  - intros x Hx Hne.
    apply list_elem_of_In in Hx. vm_compute in Hx.
    destruct Hx as [<- | [<- | [<- | [<- | []]]]];
      [done | reflexivity | reflexivity | reflexivity].
  - vm_compute. reflexivity.
Defined.

(** X14. With a limit of 0 retention removes every directory but
    [current], the index directory included: when that removal succeeds
    the index file is gone, so the next campaign loads an empty index and
    starts with a full backup. *)
Theorem limit_zero_removes_the_index (e : env) (w : world) :
  max_backup_versions e = 0 ->
  dir "hash_index" ∈ server_dir w ->
  rmtree_ok e "hash_index" = true ->
  let w' := BackupManager.cleanup_old_backups e w in
  hash_index_file w' = FileAbsent
  /\ IncrementalBackup.is_first_backup
       (IncrementalBackup.load_hash_index (hash_index_file w')) = true.
Proof.
  intros Hn Hin Hrm w'.
  assert (hash_index_file w' = FileAbsent) as Hfile.
  { subst w'. unfold BackupManager.cleanup_old_backups.
    rewrite remove_all_hash_index_file.
    replace (existsb _ _) with true; [done |]. symmetry.
    apply existsb_exists. exists (dir "hash_index").
    split; [| simpl; by rewrite Hrm].
    rewrite Hn. rewrite slice_from_nonneg by done. cbn [Z.to_nat drop].
    apply list_elem_of_In. rewrite sort_desc_perm.
    by apply index_dir_in_backup_dirs. }
  by rewrite Hfile.
Qed.

(** A run of X14. *)
Lemma limit_zero_removes_the_index_witness :
  let e := demo_env true (fun _ => true) (fun _ => true) CopyDone 0 in
  hash_index_file used_world = FileJson full_index
  /\ hash_index_file (BackupManager.cleanup_old_backups e used_world)
     = FileAbsent.
Proof.
  intros e. split; [reflexivity |].
  refine (proj1 (limit_zero_removes_the_index e used_world eq_refl _ eq_refl)).
  vm_compute. apply list_elem_of_further, list_elem_of_here.
Defined.

(** * Further properties of a campaign *)

Lemma file_events_no_disk_change (e : env) (rp lp : string) (files : list string) :
  List.filter is_disk_change (file_events e rp lp files) = [].
Proof.
  unfold file_events.
  induction files as [| f files IH]; [done |].
  cbn [flat_map]. rewrite List.filter_app, IH.
  by destruct (makedirs_ok e _).
Qed.

(** A directory operation removes and copies no directory. *)
Lemma download_directory_no_disk_change (e : env) (rp lp : string)
    (self : SSHBackup.t) (w : world) :
  exists evs,
    trace (snd (SSHBackup.download_directory e rp lp self w))
    = (trace w ++ evs)%list
    /\ List.filter is_disk_change evs = [].
Proof.
  destruct (makedirs_ok e lp) eqn:Hmk.
  - destruct (IncrementalBackup.is_first_backup (SSHBackup.hash_index self))
      eqn:Hmode.
    + destruct (download_full e rp lp self w Hmk Hmode) as (_ & _ & Ht & _).
      eexists. split; [exact Ht |]. by destruct (scp_get_tree e rp).
    + destruct (download_incremental e rp lp self w Hmk Hmode)
        as (_ & _ & Hnil & Hcopy).
      destruct (fst (SSHBackup.select_files e (find_files e rp)
                       (SSHBackup.hash_index self))) as [| f files].
      * rewrite (Hnil eq_refl). exists []. by rewrite app_nil_r.
      * destruct Hcopy as (_ & Ht & _); [done |].
        eexists. split; [exact Ht |].
        by rewrite List.filter_app, file_events_no_disk_change.
  - destruct (download_mkdir_fails e rp lp self w Hmk) as (_ & _ & ->).
    exists []. by rewrite app_nil_r.
Qed.

Lemma backup_paths_no_disk_change (e : env) (paths : list string) :
  forall (s : bool) (client : SSHBackup.t) (w : world),
    exists evs,
      trace (snd (BackupManager.backup_paths e paths s client w))
      = (trace w ++ evs)%list
      /\ List.filter is_disk_change evs = [].
Proof.
  induction paths as [| p paths IH]; intros s client w.
  - exists []. by rewrite app_nil_r.
  - cbn [BackupManager.backup_paths]. cbv zeta.
    destruct (download_directory_no_disk_change e p (local_path_of e p) client w)
      as (evs1 & Ht1 & Hf1).
    match goal with
    | |- context [BackupManager.backup_paths e paths ?s' ?c' ?w'] =>
        destruct (IH s' c' w') as (evs2 & Ht2 & Hf2)
    end.
    exists (evs1 ++ evs2)%list. split.
    + by rewrite Ht2, Ht1, app_assoc.
    + by rewrite List.filter_app, Hf1, Hf2.
Qed.

Lemma path_results_length (e : env) (paths : list string) :
  forall (client : SSHBackup.t) (w : world),
    length (path_results e paths client w) = length paths.
Proof.
  induction paths as [| p paths IH]; intros client w; [done |].
  cbn [path_results length]. cbv zeta. cbn [length]. by rewrite IH.
Qed.

(** X15. A campaign is reported successful only when it was: if
    [backup_server] returns [True] (the directories of the campaign
    having been made), then the connection succeeded and every one of the
    directory operations, one per configured path, returned [True].  A
    path that fails is never covered up by the paths after it. *)
Theorem successful_campaign_had_all_paths_succeed (e : env)
    (paths : list string) (w w1 w' : world) :
  reserved e w = Some w1 ->
  BackupManager.backup_server e paths w = Some (true, w') ->
  let results :=
    path_results e paths
      (SSHBackup.init (IncrementalBackup.load_hash_index (hash_index_file w1)))
      w1 in
  connect_ok e = true
  /\ length results = length paths
  /\ forallb id results = true.
Proof.
  intros Hres Hrun results.
  rewrite (backup_server_reserved e paths w w1 Hres) in Hrun.
  destruct (connect_ok e); cbn [negb] in Hrun; [| done].
  cbv zeta in Hrun.
  destruct (backup_paths_world e paths true
              (SSHBackup.init (IncrementalBackup.load_hash_index
                                 (hash_index_file w1))) w1) as (Hs & _).
  cbv zeta in Hs. rewrite Hs in Hrun. cbn [andb] in Hrun. fold results in Hrun.
  split; [done |]. split; [apply path_results_length |].
  by destruct (forallb id results).
Qed.

(** A run of X15: a campaign over two trees that succeeds. *)
Lemma successful_campaign_had_all_paths_succeed_witness :
  let e := demo_env true (fun _ => true) (fun _ => true) CopyDone 3 in
  forallb id
    (path_results e ["/srv/www"; "/srv/db"] (SSHBackup.init ∅)
       (set_server_dir
          [dir "current"; dir "20240105_020000"; dir "hash_index"]
          empty_world)) = true.
Proof.
  intros e.
  refine (proj2 (proj2
    (successful_campaign_had_all_paths_succeed e ["/srv/www"; "/srv/db"]
       empty_world
       (set_server_dir
          [dir "current"; dir "20240105_020000"; dir "hash_index"]
          empty_world)
       (snd (default (false, empty_world)
               (BackupManager.backup_server e ["/srv/www"; "/srv/db"]
                  empty_world)))
       _ _))).
  - reflexivity.
  - vm_compute. reflexivity.
Defined.

Lemma mkdir_exist_ok_cases (child : string) (d d' : list dirent) :
  BackupManager.mkdir_exist_ok child d = Some d' ->
  d' = d \/ d' = (d ++ [dir child])%list.
Proof.
  unfold BackupManager.mkdir_exist_ok.
  destruct (List.find _ d) as [x |].
  - destruct (is_dir x); [| done]. intros [= <-]. by left.
  - intros [= <-]. by right.
Qed.

(** The directories made for a campaign are added at the end of the
    listing. *)
Lemma reserved_server_dir (e : env) (w w1 : world) :
  reserved e w = Some w1 ->
  exists added,
    server_dir w1 = (server_dir w ++ added)%list
    /\ Forall (fun x => x = dir "current" \/ x = dir (strftime_now e)
                        \/ x = dir "hash_index") added.
Proof.
  unfold reserved.
  destruct (BackupManager.mkdir_exist_ok "current" (server_dir w))
    as [d1 |] eqn:H1; [| done].
  destruct (BackupManager.mkdir_exist_ok (strftime_now e) d1)
    as [d2 |] eqn:H2; [| done].
  destruct (BackupManager.mkdir_exist_ok "hash_index" d2)
    as [d3 |] eqn:H3; [| done].
  intros [= <-]. cbn [server_dir set_server_dir].
  apply mkdir_exist_ok_cases in H1, H2, H3.
  assert (exists a1, d1 = (server_dir w ++ a1)%list
                     /\ Forall (fun x => x = dir "current"
                                         \/ x = dir (strftime_now e)
                                         \/ x = dir "hash_index") a1)
    as (a1 & -> & F1).
  { destruct H1 as [-> | ->]; [exists []; by rewrite app_nil_r |].
    eexists. split; [done |]. repeat constructor. }
  assert (exists a2, d2 = (server_dir w ++ a2)%list
                     /\ Forall (fun x => x = dir "current"
                                         \/ x = dir (strftime_now e)
                                         \/ x = dir "hash_index") a2)
    as (a2 & -> & F2).
  { destruct H2 as [-> | ->]; [by exists a1 |].
    exists (a1 ++ [dir (strftime_now e)])%list. rewrite app_assoc.
    split; [done |]. apply Forall_app_2; [done |]. apply Forall_singleton.
    right. by left. }
  destruct H3 as [-> | ->]; [by exists a2 |].
  exists (a2 ++ [dir "hash_index"])%list. rewrite app_assoc.
  split; [done |]. apply Forall_app_2; [done |]. apply Forall_singleton.
  right. by right.
Qed.

(** X16. A campaign whose connection succeeds and in which a path fails
    makes no snapshot and runs no retention: the only directory it
    removes is the version directory it made (the removal succeeding),
    and when that name was not on disk before, the versions on disk are
    those from before the campaign. *)
Theorem failed_campaign_changes_no_version (e : env) (paths : list string)
    (w w1 : world) :
  reserved e w = Some w1 ->
  connect_ok e = true ->
  forallb id
    (path_results e paths
       (SSHBackup.init (IncrementalBackup.load_hash_index (hash_index_file w1)))
       w1) = false ->
  rmtree_ok e (strftime_now e) = true ->
  BackupManager.has_child (strftime_now e) (server_dir w) = false ->
  exists w',
    BackupManager.backup_server e paths w = Some (false, w')
    /\ List.filter is_disk_change (new_events w w')
       = [ERmtree (strftime_now e)]
    /\ versions (server_dir w') = versions (server_dir w).
Proof.
  intros Hres Hconn Hfail Hrm Hfresh.
  rewrite (backup_server_reserved e paths w w1 Hres), Hconn. cbn [negb]. cbv zeta.
  set (client := SSHBackup.init
                   (IncrementalBackup.load_hash_index (hash_index_file w1))) in *.
  destruct (backup_paths_world e paths true client w1) as (Hs & Hd & _).
  destruct (backup_paths_no_disk_change e paths true client w1)
    as (evs & Ht & Hevs).
  cbv zeta in Hs, Hd. rewrite Hs, Hfail. cbn [andb].
  eexists. split; [reflexivity |].
  unfold BackupManager.rollback.
  rewrite Hd, (reserved_has_version e w w1 Hres).
  unfold BackupManager.rmtree. rewrite Hrm. cbn [snd server_dir trace].
  autorewrite with world. rewrite Hd, Ht.
  destruct (reserved_hash_index_file e w w1 Hres) as [_ Htr].
  destruct (reserved_server_dir e w w1 Hres) as (added & Hw1 & Hadded).
  split.
  - unfold new_events. cbn [trace]. rewrite Htr, <- app_assoc, drop_app_length.
    by rewrite List.filter_app, Hevs.
  - rewrite Hw1. unfold versions. rewrite filter_filter, List.filter_app.
    match goal with
    | |- context [List.filter ?q added] =>
        assert (List.filter q added = []) as ->
    end.
    { apply filter_none. intros x Hx. rewrite Forall_forall in Hadded.
      destruct (Hadded x Hx) as [-> | [-> | ->]]; simpl;
        rewrite ?String.eqb_refl; by rewrite ?andb_false_r. }
    rewrite app_nil_r. f_equal. apply filter_ext_in. intros x Hx.
    replace (negb (String.eqb (name x) (strftime_now e))) with true; [done |].
    symmetry. apply negb_true_iff, String.eqb_neq. intros Heq.
    unfold BackupManager.has_child in Hfresh.
    assert (existsb (fun x => String.eqb (name x) (strftime_now e))
              (server_dir w) = true); [| congruence].
    apply existsb_exists. exists x. split; [done | by apply String.eqb_eq].
Qed.

(** A run of X16 in which the local directory of the second path cannot be made. *)
Lemma failed_campaign_changes_no_version_witness :
  let broken :=
    with_makedirs (fun p => negb (String.eqb p "current/srv/db"))
      (demo_env true (fun _ => true) (fun _ => true) CopyDone 3) in
  exists w',
    BackupManager.backup_server broken ["/srv/www"; "/srv/db"] used_world
    = Some (false, w')
    /\ versions (server_dir w')
       = ["20240102_020000"; "20240103_020000"; "20240104_020000"].
Proof.
  intros broken.
  destruct (failed_campaign_changes_no_version broken ["/srv/www"; "/srv/db"]
              used_world
              (set_server_dir (server_dir used_world ++ [dir "20240105_020000"])
                 used_world))
    as (w' & Hrun & _ & Hv).
  - vm_compute. reflexivity.
  - reflexivity.
  - vm_compute. reflexivity.
  - reflexivity.
  - vm_compute. reflexivity.
  - exists w'. split; [exact Hrun | exact Hv].
Defined.

(** ** The mirror survives *)

Lemma has_child_filter_other (c child : string) (d : list dirent) :
  c <> child ->
  BackupManager.has_child c
    (List.filter (fun x => negb (String.eqb (name x) child)) d)
  = BackupManager.has_child c d.
Proof.
  intros Hne. unfold BackupManager.has_child.
  induction d as [| x d IH]; [done |]. cbn [List.filter existsb].
  destruct (String.eqb_spec (name x) child) as [Hx | Hx]; cbn [negb existsb].
  - rewrite IH. destruct (String.eqb_spec (name x) c); [congruence | done].
  - by rewrite IH.
Qed.

Lemma has_child_rmtree (e : env) (c child : string) (w : world) :
  c <> child ->
  BackupManager.has_child c (server_dir (snd (BackupManager.rmtree e child w)))
  = BackupManager.has_child c (server_dir w).
Proof.
  intros Hne. unfold BackupManager.rmtree.
  destruct (rmtree_ok e child); cbn [snd server_dir]; autorewrite with world;
    [by apply has_child_filter_other | done].
Qed.

Lemma has_child_copy (e : env) (c target : string) (w : world) :
  c <> target ->
  BackupManager.has_child c (server_dir w) = true ->
  BackupManager.has_child c
    (server_dir (snd (BackupManager.copy_backup_to_version e target w)))
  = true.
Proof.
  intros Hne Hc. unfold BackupManager.copy_backup_to_version.
  set (removed := if BackupManager.has_child target (server_dir w)
                  then BackupManager.rmtree e target w else (true, w)).
  assert (BackupManager.has_child c (server_dir (snd removed)) = true) as Hr.
  { subst removed. destruct (BackupManager.has_child target (server_dir w));
      [by rewrite has_child_rmtree | done]. }
  destruct (fst removed); [| done].
  destruct (copytree e); cbn [snd server_dir set_server_dir];
    autorewrite with world; [| | done];
    unfold BackupManager.has_child in *; by rewrite existsb_app, Hr.
Qed.

Lemma elem_of_slice_from {A} (l : list A) (k : Z) (x : A) :
  x ∈ BackupManager.slice_from l k -> x ∈ l.
Proof.
  unfold BackupManager.slice_from.
  destruct (0 <=? k); intros Hx; by eapply subseteq_drop.
Qed.

Lemma has_child_cleanup_current (e : env) (w : world) :
  BackupManager.has_child "current" (server_dir w) = true ->
  BackupManager.has_child "current"
    (server_dir (BackupManager.cleanup_old_backups e w)) = true.
Proof.
  unfold BackupManager.cleanup_old_backups, BackupManager.has_child.
  rewrite remove_all_server_dir. intros Hc.
  apply existsb_exists in Hc as (x & Hx & Hn).
  apply existsb_exists. exists x. split; [| done].
  apply filter_In. split; [done |].
  apply negb_true_iff. unfold removed_by.
  destruct (existsb _ _) eqn:Hex; [| done]. exfalso.
  apply existsb_name in Hex as (o & Ho & Heq).
  apply elem_of_slice_from in Ho. rewrite sort_desc_perm in Ho.
  apply backup_dirs_elem in Ho as (_ & _ & Hne).
  apply String.eqb_eq in Hn. congruence.
Qed.

(** X17. Whatever happens in a campaign from which [backup_server]
    returns, the mirror directory [current] is on disk afterwards:
    neither the rollback, nor the replacement of the version directory,
    nor retention removes it (the campaign's timestamp being a name other
    than [current]). *)
Theorem campaign_keeps_the_mirror (e : env) (paths : list string)
    (w w' : world) (ok : bool) :
  BackupManager.backup_server e paths w = Some (ok, w') ->
  strftime_now e <> "current" ->
  BackupManager.has_child "current" (server_dir w') = true.
Proof.
  unfold BackupManager.backup_server. intros Hrun Hstamp.
  destruct (BackupManager.mkdir_exist_ok "current" (server_dir w))
    as [d1 |] eqn:H1; [| done].
  destruct (BackupManager.mkdir_exist_ok (strftime_now e) d1)
    as [d2 |] eqn:H2; [| done].
  assert (BackupManager.has_child "current" d2 = true) as Hd2.
  { eapply has_child_mkdir_other; [exact H2 |]. by eapply has_child_mkdir. }
  assert (forall v, BackupManager.has_child "current" (server_dir v) = true ->
            BackupManager.has_child "current"
              (server_dir (BackupManager.rollback e v)) = true) as Hroll.
  { intros v Hv. unfold BackupManager.rollback.
    destruct (BackupManager.has_child (strftime_now e) (server_dir v));
      [| done].
    rewrite has_child_rmtree; [done | congruence]. }
  destruct (BackupManager.mkdir_exist_ok "hash_index" d2) as [d3 |] eqn:H3.
  - assert (BackupManager.has_child "current" d3 = true) as Hd3
      by (eapply has_child_mkdir_other; [exact H3 | exact Hd2]).
    destruct (connect_ok e); cbn [negb] in Hrun.
    + cbv zeta in Hrun.
      match type of Hrun with
      | context [BackupManager.backup_paths e paths true ?c ?v] =>
          destruct (backup_paths_world e paths true c v) as (_ & Hd & _);
          set (r := BackupManager.backup_paths e paths true c v) in *
      end.
      cbv zeta in Hd. cbn [server_dir set_server_dir] in Hd.
      destruct (fst (fst r)); injection Hrun as <- <-.
      * unfold BackupManager.publish. apply has_child_cleanup_current.
        apply has_child_copy; [congruence | by rewrite Hd].
      * apply Hroll. by rewrite Hd.
    + by injection Hrun as <- <-.
  - injection Hrun as <- <-. by apply Hroll.
Qed.

(** A run of X17 with limit 0, where retention removes all it can. *)
Lemma campaign_keeps_the_mirror_witness :
  let e := demo_env true (fun _ => true) (fun _ => true) CopyDone 0 in
  BackupManager.has_child "current"
    (server_dir
       (BackupManager.publish e
          (snd (BackupManager.backup_paths e ["/srv/www"] true
                  (SSHBackup.init full_index)
                  (set_server_dir
                     (server_dir used_world ++ [dir "20240105_020000"])
                     used_world)))))
  = true.
Proof.
  intros e.
  refine (campaign_keeps_the_mirror e ["/srv/www"] used_world _ true _ _).
  - vm_compute. reflexivity.
  - vm_compute. discriminate.
Defined.

(** * All servers *)

Lemma run_servers_count (servers : list server) :
  forall (c : Z) (disk : gmap string world) (c' : Z) (disk' : gmap string world),
    run_servers servers c disk = Some (c', disk') ->
    exists results,
      campaign_results servers disk = Some results
      /\ length results = length servers
      /\ c <= c' <= c + Z.of_nat (length servers)
      /\ (c' = c + Z.of_nat (length servers) <-> forallb id results = true).
Proof.
  induction servers as [| s servers IH]; intros c disk c' disk' Hrun.
  - injection Hrun as <- <-. exists []. simpl. repeat split; lia.
  - cbn [run_servers campaign_results] in *.
    destruct (BackupManager.backup_server (server_env s) (remote_paths s)
                (world_of disk (server_name s))) as [[ok w'] |]; [| done].
    apply IH in Hrun as (results & -> & Hlen & Hrange & Hall).
    exists (ok :: results). cbn [length forallb]. rewrite Hlen.
    split; [done |]. split; [done |].
    destruct ok; unfold id at 1; cbn [andb].
    + split; [lia |]. rewrite <- Hall. lia.
    + split; [lia |]. split; [lia | done].
Qed.

(** X18. [run_backup] runs the campaigns of the configured servers in
    order, each on the disk the earlier ones left, a failed campaign not
    stopping the later ones; when no campaign raises it returns, with one
    result per server, and it returns success exactly when every campaign
    returned success. *)
Theorem run_backup_succeeds_iff_all_do (servers : list server)
    (disk disk' : gmap string world) (ok : bool) :
  run_backup servers disk = Some (ok, disk') ->
  exists results,
    campaign_results servers disk = Some results
    /\ length results = length servers
    /\ ok = forallb id results.
Proof.
  unfold run_backup. intros Hrun.
  destruct (run_servers servers 0 disk) as [[c d] |] eqn:Hloop; [| done].
  injection Hrun as <- <-.
  apply run_servers_count in Hloop as (results & Hres & Hlen & Hrange & Hall).
  exists results. split; [done |]. split; [done |].
  destruct (forallb id results).
  - apply Z.eqb_eq. by apply Hall.
  - apply Z.eqb_neq. intros Heq. by apply Hall in Heq.
Qed.

(** A run of X18: the first server cannot be reached, the second one is backed up all the same. *)
Lemma run_backup_succeeds_iff_all_do_witness :
  let up := {| server_name := "web";
               server_env := demo_env true (fun _ => true) (fun _ => true)
                               CopyDone 3;
               remote_paths := ["/srv/www"] |} in
  let down := {| server_name := "db";
                 server_env := demo_env false (fun _ => true) (fun _ => true)
                                 CopyDone 3;
                 remote_paths := ["/srv/db"] |} in
  campaign_results [down; up] ∅ = Some [false; true].
Proof.
  intros up down.
  destruct (run_backup_succeeds_iff_all_do [down; up] ∅
              (snd (default (false, ∅) (run_backup [down; up] ∅))) false)
    as (results & Hres & _).
  - vm_compute. reflexivity.
  - rewrite Hres. vm_compute in Hres. injection Hres as <-. reflexivity.
Defined.

(** * The snapshot of a successful campaign *)

Lemma kept_names_NoDup (e : env) (d : list dirent) :
  0 <= max_backup_versions e ->
  NoDup (map name d) ->
  NoDup (map name (kept_backups e d)).
Proof.
  intros Hn Hnd.
  destruct (retention_split e d Hn Hnd) as (Hperm & _ & _).
  assert (NoDup (map name (kept_backups e d ++ old_backups e d)%list)) as H
    by (rewrite Hperm; by apply NoDup_names_filter).
  rewrite map_app in H. by apply NoDup_app in H as (? & _ & _).
Qed.

(** With a limit of at least 2 the newest version is among the kept
    directories: only the index directory can come before it. *)
Lemma newest_is_kept (e : env) (d : list dirent) (x : dirent) :
  2 <= max_backup_versions e ->
  NoDup (map name d) ->
  x ∈ BackupManager.backup_dirs d ->
  newest_version (name x) d ->
  x ∈ kept_backups e d.
Proof.
  intros Hn Hnd Hx [Hbelow Hnew].
  destruct (retention_split e d) as (Hperm & Hlen & Hsep); [lia | done |].
  pose proof (kept_names_NoDup e d ltac:(lia) Hnd) as Hkn.
  pose proof Hx as Hx'. rewrite <- Hperm in Hx'.
  apply elem_of_app in Hx' as [Hk | Ho]; [done |]. exfalso.
  assert (forall k, k ∈ kept_backups e d -> name k = "hash_index") as Hall.
  { intros k Hk. destruct (Hsep k x Hk Ho) as [Hdesc Hne].
    destruct (Hnew k) as [Heq | [Heq | Hlt]]; [| done | done |].
    - rewrite <- Hperm. apply elem_of_app. by left.
    - exfalso. by apply (ltb_not_leb (name k) (name x)). }
  assert (length (kept_backups e d) <= 1)%nat as Hone.
  { destruct (kept_backups e d) as [| k1 [| k2 ks]]; [simpl; lia | simpl; lia |].
    exfalso. cbn [map] in Hkn. apply NoDup_cons in Hkn as [Hk1 _].
    apply Hk1. rewrite (Hall k1) by left.
    rewrite <- (Hall k2) by (right; left). left. }
  assert (0 < length (old_backups e d))%nat
    by (destruct (old_backups e d); [by apply elem_of_nil in Ho | simpl; lia]).
  apply Permutation_length in Hperm. rewrite length_app in Hperm. lia.
Qed.

Lemma copy_done_server_dir (e : env) (target : string) (w : world) :
  BackupManager.has_child target (server_dir w) = true ->
  rmtree_ok e target = true ->
  copytree e = CopyDone ->
  server_dir (snd (BackupManager.copy_backup_to_version e target w))
  = (List.filter (fun x => negb (String.eqb (name x) target)) (server_dir w)
       ++ [dir target])%list.
Proof.
  intros Hc Hrm Hcopy. unfold BackupManager.copy_backup_to_version.
  rewrite Hc. unfold BackupManager.rmtree. rewrite Hrm, Hcopy. reflexivity.
Qed.

(** X19. When every path of a campaign has succeeded and the snapshot
    copy succeeds, the limit is at least 2 and the campaign's timestamp is
    above the names of the older versions (and below [hash_index]), the
    version directory of the campaign is on disk when [backup_server] is
    done: retention does not remove the snapshot that was just made. *)
Theorem new_snapshot_survives_retention (e : env) (w : world) :
  2 <= max_backup_versions e ->
  NoDup (map name (server_dir w)) ->
  BackupManager.has_child (strftime_now e) (server_dir w) = true ->
  rmtree_ok e (strftime_now e) = true ->
  copytree e = CopyDone ->
  strftime_now e <> "current" ->
  newest_version (strftime_now e) (server_dir w) ->
  dir (strftime_now e) ∈ server_dir (BackupManager.publish e w).
Proof.
  intros Hn Hnd Hc Hrm Hcopy Hcur [Hbelow Hnew].
  unfold BackupManager.publish, BackupManager.cleanup_old_backups.
  set (w1 := snd (BackupManager.copy_backup_to_version e (strftime_now e) w)).
  fold (old_backups e (server_dir w1)).
  assert (server_dir w1
          = (List.filter
               (fun x => negb (String.eqb (name x) (strftime_now e)))
               (server_dir w) ++ [dir (strftime_now e)])%list) as Hw1
    by by apply copy_done_server_dir.
  assert (NoDup (map name (server_dir w1))) as Hnd1.
  { rewrite Hw1, map_app. apply NoDup_app. split; [| split].
    - by apply NoDup_names_filter.
    - intros n Hin. apply list_elem_of_In, in_map_iff in Hin as (y & Hn' & Hy).
      apply filter_In in Hy as [_ Hy]. apply negb_true_iff, String.eqb_neq in Hy.
      simpl. intros [Heq | H]%elem_of_cons; [congruence | by apply elem_of_nil in H].
    - simpl. apply NoDup_singleton. }
  assert (dir (strftime_now e) ∈ server_dir w1) as Hin
    by (rewrite Hw1; apply elem_of_app; right; left).
  assert (dir (strftime_now e) ∈ kept_backups e (server_dir w1)) as Hkept.
  { apply newest_is_kept; [done | done | by apply backup_dirs_elem |].
    split; [done |]. intros x Hx. cbn [name dir].
    apply backup_dirs_elem in Hx as (Hx & Hdir & Hne).
    rewrite Hw1 in Hx. apply elem_of_app in Hx as [Hx | Hx].
    - apply list_elem_of_In, filter_In in Hx as [Hx _].
      apply Hnew. apply backup_dirs_elem. by rewrite list_elem_of_In.
    - apply elem_of_cons in Hx as [-> | Hx]; [by left | by apply elem_of_nil in Hx]. }
  rewrite remove_all_server_dir.
  apply list_elem_of_In, filter_In. split; [by apply list_elem_of_In |].
  apply negb_true_iff. unfold removed_by.
  destruct (existsb _ _) eqn:Hex; [| done]. exfalso.
  apply existsb_name in Hex as (o & Ho & Heq).
  destruct (retention_split e (server_dir w1)) as (_ & _ & Hsep); [lia | done |].
  by destruct (Hsep _ o Hkept Ho) as [_ Hne'].
Qed.

(** A run of X19 with limit 2. *)
Lemma new_snapshot_survives_retention_witness :
  let e := demo_env true (fun _ => true) (fun _ => true) CopyDone 2 in
  let w := set_server_dir (server_dir used_world ++ [dir "20240105_020000"])
             used_world in
  dir "20240105_020000" ∈ server_dir (BackupManager.publish e w).
Proof.
  intros e w.
  apply (new_snapshot_survives_retention e w).
  - vm_compute. discriminate.
  - vm_compute. apply (bool_decide_unpack _). vm_compute. exact I.
  - reflexivity.
  - reflexivity.
  - reflexivity.
  - vm_compute. discriminate.
  - split; [reflexivity |]. intros x Hx.
    apply list_elem_of_In in Hx. vm_compute in Hx.
    destruct Hx as [<- | [<- | [<- | [<- | [<- | []]]]]]; simpl;
      [right; by left | right; by right | right; by right | right; by right
      | by left].
Defined.
